(** * geonames-fst: the name index, its ingestion and its query engine

    Shallow embedding of [src/geonames/data.rs], [src/geonames/utils.rs],
    [src/geonames/searcher.rs] and the route handlers of [src/routes/].

    Conventions.
    - A Rust [String] is a Rocq [string]: a sequence of bytes, compared
      bytewise by [String.compare] (as Rust's [Ord for String]).
    - A [u64] is an [N]; [u8] and [usize] are [N] and [nat].
    - Fallible code returns [res]: [Ok], [Err] for an [anyhow::Error] or a
      library error propagated with [?], and [Panic] for an [.unwrap()] or
      out-of-range slice index that would abort the thread.
    - Functions of third-party crates and of [std] that the code only calls
      ([f32] parsing, [str::trim], the [levenshtein] crate, the regex DFA
      compiler, the [fst] Levenshtein automaton) are variables of the
      sections below. *)

From Stdlib Require Import String Ascii List Bool Arith Lia Sorted Permutation.
From Stdlib Require Import ZArith NArith.
From stdpp Require Import base gmap strings pretty.
Import ListNotations.
Open Scope string_scope.
Open Scope list_scope.

(* ------------------------------------------------------------------ *)
(** ** The result monad *)

Inductive Error :=
| ECsv                       (** a [csv::Error] from [rdr.records()] *)
| EIo                        (** [get_reader] failing on the path *)
| EMissing (msg : string)    (** [anyhow!("no ...")] of [ok_or] *)
| EParseInt                  (** a [ParseIntError] of [str::parse] *)
| EFst.                      (** [fst::Error] from [into_inner] / [Map::new] *)

Inductive res (A : Type) :=
| Ok (a : A)
| Err (e : Error)
| Panic.
Arguments Ok {A} a.
Arguments Err {A} e.
Arguments Panic {A}.

Definition res_bind {A B} (m : res A) (k : A -> res B) : res B :=
  match m with
  | Ok a => k a
  | Err e => Err e
  | Panic => Panic
  end.

Notation "'let?' x ':=' m 'in' k" := (res_bind m (fun x => k))
  (at level 200, x name, m at level 100, k at level 200).

(** [opt.ok_or(e)?] *)
Definition ok_or {A} (o : option A) (e : Error) : res A :=
  match o with Some a => Ok a | None => Err e end.

(** [opt.unwrap()] *)
Definition unwrap {A} (o : option A) : res A :=
  match o with Some a => Ok a | None => Panic end.

(** [v[i]] on a slice *)
Definition index {A} (l : list A) (i : nat) : res A := unwrap (nth_error l i).

(* ------------------------------------------------------------------ *)
(** ** Integer parsing, [<uN as FromStr>] / [<iN as FromStr>] in base 10 *)

Definition digit_value (c : ascii) : option N :=
  let n := N_of_ascii c in
  if ((48 <=? n) && (n <=? 57))%N then Some (n - 48)%N else None.

Fixpoint parse_digits (acc : N) (s : string) : option N :=
  match s with
  | EmptyString => Some acc
  | String c s' =>
      match digit_value c with
      | Some d => parse_digits (acc * 10 + d)%N s'
      | None => None
      end
  end.

(** [from_str_radix(src, 10)]: an empty string, a lone sign, a non-digit
    or a value out of [lo..=hi] is an error; [+] is accepted, [-] only for
    signed types. *)
Definition parse_int (signed : bool) (lo hi : Z) (src : string) : option Z :=
  match src with
  | EmptyString => None
  | String c rest =>
      let '(pos, digits) :=
        if (Ascii.eqb c "+"%char || Ascii.eqb c "-"%char) && String.eqb rest ""
        then (true, EmptyString)
        else if Ascii.eqb c "+"%char then (true, rest)
        else if signed && Ascii.eqb c "-"%char then (false, rest)
        else (true, src) in
      match digits with
      | EmptyString => None
      | _ =>
          match parse_digits 0 digits with
          | Some n =>
              let z := if pos then Z.of_N n else (- Z.of_N n)%Z in
              if ((lo <=? z) && (z <=? hi))%Z then Some z else None
          | None => None
          end
      end
  end.

(** [s.parse::<u64>()] *)
Definition parse_u64 (s : string) : res N :=
  match parse_int false 0 (2 ^ 64 - 1) s with
  | Some z => Ok (Z.to_N z)
  | None => Err EParseInt
  end.

(** [s.parse::<i16>().ok()] *)
Definition parse_i16 (s : string) : option Z := parse_int true (- 32768) 32767 s.

(* ------------------------------------------------------------------ *)
(** ** [data.rs] *)

(** [enum MatchType] *)
Inductive MatchType :=
| Name (id : N)
| AsciiName (id : N)
| PreferredName (id : N) (lang : string)
| ShortName (id : N) (lang : string)
| Colloquial (id : N) (lang : string)
| Historic (id : N) (lang from to : string)
| Alternate (id : N) (lang : string).

(** [MatchType::id] *)
Definition MatchType_id (m : MatchType) : N :=
  match m with
  | Name id | AsciiName id => id
  | PreferredName id _ | ShortName id _ | Colloquial id _ => id
  | Historic id _ _ _ => id
  | Alternate id _ => id
  end.

(** [MatchType::ord] *)
Definition MatchType_ord (m : MatchType) : N :=
  match m with
  | Name _ => 0
  | AsciiName _ => 1
  | PreferredName _ _ => 2
  | ShortName _ _ => 3
  | Colloquial _ _ => 4
  | Historic _ _ _ _ => 5
  | Alternate _ _ => 6
  end.

(** [Ord::cmp] for a comparison that falls through to a second key
    when the first is [Equal] (the [if cmp.is_eq() { .. } else { cmp }]
    idiom of [data.rs]). *)
Definition then_cmp (c : comparison) (k : unit -> comparison) : comparison :=
  match c with Eq => k tt | _ => c end.

(** [Ord for MatchType] *)
Definition MatchType_cmp (a b : MatchType) : comparison :=
  then_cmp (N.compare (MatchType_ord a) (MatchType_ord b))
    (fun _ => N.compare (MatchType_id a) (MatchType_id b)).

(** [struct MatchKey] *)
Record MatchKey := mkMatchKey { mk_name : string; mk_typ : MatchType }.

(** [Ord for MatchKey]: only [typ] is compared. *)
Definition MatchKey_cmp (a b : MatchKey) : comparison :=
  MatchType_cmp (mk_typ a) (mk_typ b).

(** [struct GeoNamesEntry]; an [f32] is kept as its 32-bit pattern. *)
Record GeoNamesEntry := mkGeoNamesEntry {
  ge_id : N;
  ge_name : string;
  ge_latitude : N;
  ge_longitude : N;
  ge_feature_class : string;
  ge_feature_code : string;
  ge_country_code : string;
  ge_adm1 : string;
  ge_adm2 : string;
  ge_adm3 : string;
  ge_adm4 : string;
  ge_elevation : option Z
}.

(** [trait Entry] *)
Class Entry (T : Type) := entry : T -> GeoNamesEntry.

(** [struct GeoNamesSearchResult] *)
Record GeoNamesSearchResult := mkResult { r_key : MatchKey; r_entry : GeoNamesEntry }.

(** [GeoNamesSearchResult::new] *)
Definition GeoNamesSearchResult_new (key : string) (typ : MatchType) (gn : GeoNamesEntry) :=
  mkResult (mkMatchKey key typ) gn.

#[global] Instance Entry_GeoNamesSearchResult : Entry GeoNamesSearchResult := r_entry.

(** [Ord for GeoNamesSearchResult] *)
Definition GeoNamesSearchResult_cmp (a b : GeoNamesSearchResult) : comparison :=
  MatchKey_cmp (r_key a) (r_key b).

(** [struct GeoNamesSearchResultWithDist] *)
Record GeoNamesSearchResultWithDist := mkResultD {
  d_key : MatchKey; d_entry : GeoNamesEntry; d_distance : nat }.

(** [GeoNamesSearchResultWithDist::new] *)
Definition GeoNamesSearchResultWithDist_new (key : string) (typ : MatchType)
  (gn : GeoNamesEntry) (dist : nat) := mkResultD (mkMatchKey key typ) gn dist.

#[global] Instance Entry_GeoNamesSearchResultWithDist : Entry GeoNamesSearchResultWithDist :=
  d_entry.

(** [Ord for GeoNamesSearchResultWithDist] *)
Definition GeoNamesSearchResultWithDist_cmp (a b : GeoNamesSearchResultWithDist) : comparison :=
  then_cmp (Nat.compare (d_distance a) (d_distance b))
    (fun _ => MatchKey_cmp (d_key a) (d_key b)).

(* ------------------------------------------------------------------ *)
(** ** [slice::sort_by] / [slice::sort]: a stable sort

    Rust's slice sort is stable, so its output is the unique stable
    ordering; it is computed here by insertion sort.  An element is
    inserted before the first element it is not greater than, which keeps
    equal elements in their original order. *)

Section Sort.
Context {A : Type} (cmp : A -> A -> comparison).

Fixpoint insert_by (x : A) (l : list A) : list A :=
  match l with
  | [] => [x]
  | y :: l' => match cmp x y with Gt => y :: insert_by x l' | _ => x :: l end
  end.

Fixpoint sort_by (l : list A) : list A :=
  match l with
  | [] => []
  | x :: l' => insert_by x (sort_by l')
  end.
End Sort.

(* ------------------------------------------------------------------ *)
(** ** Functions of [std] used by ingestion

    [str::trim] and [<f32 as FromStr>::from_str] (giving the bit pattern
    of the parsed [f32]) are library functions; a development using the
    ingestion code picks them through this class. *)

Class Std := {
  str_trim : string -> string;
  f32_from_str : string -> option N
}.

(** [f32::NAN], as a bit pattern *)
Definition f32_NAN : N := 2143289344%N.

(* ------------------------------------------------------------------ *)
(** ** [utils.rs] *)

(** A file as [get_reader] and [csv::Reader::records] deliver it: opening
    it may fail ([Err] for an unsupported extension, [Panic] for
    [File::open(..).expect(..)]), and each record may be a CSV error.
    Splitting a line into tab-separated fields is the [csv] crate's job. *)
Definition CsvFile := res (list (res (list string))).

Section Ingestion.
Context `{Std}.

(** [parse_float_else_nan] *)
Definition parse_float_else_nan (maybe_str : option string) : N :=
  match maybe_str with
  | Some s => match f32_from_str (str_trim s) with Some f => f | None => f32_NAN end
  | None => f32_NAN
  end.

Definition unwrap_or (o : option string) (d : string) : string :=
  match o with Some s => s | None => d end.

(** The body of the loop of [parse_geonames_file] for one record: the
    pairs it pushes onto [query_pairs] and the entry it inserts. *)
Definition parse_geonames_row (record : list string)
  : res (list (string * MatchType) * (N * GeoNamesEntry)) :=
  let? id_s := ok_or (nth_error record 0) (EMissing "no geoname_id") in
  let? id := parse_u64 id_s in
  let? name := ok_or (nth_error record 1) (EMissing "no name") in
  let? name_ascii := ok_or (nth_error record 2) (EMissing "no ascii name") in
  let latitude := parse_float_else_nan (nth_error record 4) in
  let longitude := parse_float_else_nan (nth_error record 5) in
  let feature_class := unwrap_or (nth_error record 6) "<missing>" in
  let feature_code := unwrap_or (nth_error record 7) "<missing>" in
  let country_code := unwrap_or (nth_error record 8) "<missing>" in
  let adm1 := unwrap_or (nth_error record 10) "" in
  let adm2 := unwrap_or (nth_error record 11) "" in
  let adm3 := unwrap_or (nth_error record 12) "" in
  let adm4 := unwrap_or (nth_error record 13) "" in
  let elevation := match nth_error record 15 with Some i => parse_i16 i | None => None end in
  let pushed :=
    (if negb (String.eqb name_ascii name) then [(name_ascii, AsciiName id)] else [])
    ++ [(name, Name id)] in
  Ok (pushed, (id, mkGeoNamesEntry id name latitude longitude feature_class
                    feature_code country_code adm1 adm2 adm3 adm4 elevation)).

Fixpoint parse_geonames_rows (rows : list (res (list string)))
  (query_pairs : list (string * MatchType)) (geonames : gmap N GeoNamesEntry)
  : res (list (string * MatchType) * gmap N GeoNamesEntry) :=
  match rows with
  | [] => Ok (query_pairs, geonames)
  | row :: rows' =>
      let? record := row in
      let? r := parse_geonames_row record in
      let '(pushed, (id, e)) := r in
      parse_geonames_rows rows' (query_pairs ++ pushed) (<[id := e]> geonames)
  end.

(** [parse_geonames_file]: the two [&mut] arguments are threaded
    through and returned. *)
Definition parse_geonames_file (file : CsvFile)
  (query_pairs : list (string * MatchType)) (geonames : gmap N GeoNamesEntry)
  : res (list (string * MatchType) * gmap N GeoNamesEntry) :=
  let? rows := file in parse_geonames_rows rows query_pairs geonames.

(** The [match (preferred, short, colloquial, historic)] of
    [parse_alternate_names_file]. *)
Definition alternate_match_type (id : N) (lang from to : string)
  (preferred short colloquial historic : bool) : MatchType :=
  match preferred, short, colloquial, historic with
  | true, false, false, false => PreferredName id lang
  | false, true, false, false => ShortName id lang
  | false, false, true, false => Colloquial id lang
  | false, false, false, true => Historic id lang from to
  | _, _, _, _ => Alternate id lang
  end.

(** The body of the loop of [parse_alternate_names_file] for one
    record: [Ok None] is a [continue], [Ok (Some p)] pushes [p]. *)
Definition parse_alternate_row (include_languages : option (list string))
  (geonames : gmap N GeoNamesEntry) (record : list string)
  : res (option (string * MatchType)) :=
  let? lang := ok_or (nth_error record 2) (EMissing "no language") in
  if match include_languages with
     | Some set => negb (existsb (String.eqb lang) set)
     | None => false
     end
  then Ok None else
  let? id_s := ok_or (nth_error record 1) (EMissing "no geoname_id") in
  let? id := parse_u64 id_s in
  if negb (bool_decide (is_Some (geonames !! id))) then Ok None else
  let? name := ok_or (nth_error record 3) (EMissing "no name") in
  let? p := ok_or (nth_error record 4) (EMissing "no preferred") in
  let? s := ok_or (nth_error record 5) (EMissing "no short") in
  let? c := ok_or (nth_error record 6) (EMissing "no colloquial") in
  let? h := ok_or (nth_error record 7) (EMissing "no historic") in
  let from := unwrap_or (nth_error record 8) "" in
  let to := unwrap_or (nth_error record 9) "" in
  Ok (Some (name, alternate_match_type id lang from to
                    (String.eqb p "1") (String.eqb s "1")
                    (String.eqb c "1") (String.eqb h "1"))).

Fixpoint parse_alternate_rows (rows : list (res (list string)))
  (query_pairs : list (string * MatchType)) (geonames : gmap N GeoNamesEntry)
  (include_languages : option (list string)) : res (list (string * MatchType)) :=
  match rows with
  | [] => Ok query_pairs
  | row :: rows' =>
      let? record := row in
      let? o := parse_alternate_row include_languages geonames record in
      match o with
      | Some p => parse_alternate_rows rows' (query_pairs ++ [p]) geonames include_languages
      | None => parse_alternate_rows rows' query_pairs geonames include_languages
      end
  end.

(** [parse_alternate_names_file] *)
Definition parse_alternate_names_file (file : CsvFile)
  (query_pairs : list (string * MatchType)) (geonames : gmap N GeoNamesEntry)
  (include_languages : option (list string)) : res (list (string * MatchType)) :=
  let? rows := file in parse_alternate_rows rows query_pairs geonames include_languages.
End Ingestion.

(* ------------------------------------------------------------------ *)
(** ** The [fst] crate at its interface

    A [Map] holds its keys with their values in strictly increasing key
    order ([MapBuilder::insert] refuses any other order).  [Map::get] is a
    key lookup; [Map::search(aut)] streams, in key order, the entries
    whose key drives the automaton from [start] to a state satisfying
    [is_match]. *)

Record FstMap := mkFstMap { fst_entries : list (string * N) }.

(** [fst::Automaton]: start state, per-byte transition, acceptance. *)
Record Automaton := mkAutomaton {
  aut_state : Type;
  aut_start : aut_state;
  aut_is_match : aut_state -> bool;
  aut_accept : aut_state -> ascii -> aut_state
}.

Definition aut_run (a : Automaton) (key : string) : aut_state a :=
  fold_left (aut_accept a) (list_ascii_of_string key) (aut_start a).

Definition aut_matches (a : Automaton) (key : string) : bool :=
  aut_is_match a (aut_run a key).

(** [Map::get] *)
Fixpoint assoc_get (l : list (string * N)) (k : string) : option N :=
  match l with
  | [] => None
  | (k', v) :: l' => if String.eqb k' k then Some v else assoc_get l' k
  end.

Definition Map_get (m : FstMap) (k : string) : option N := assoc_get (fst_entries m) k.

(** [map.search(&aut).into_stream()], drained *)
Definition Map_search (m : FstMap) (a : Automaton) : list (string * N) :=
  List.filter (fun kv => aut_matches a kv.1) (fst_entries m).

(** [MapBuilder::insert]: the key must be greater than the last key. *)
Definition MapBuilder_insert (b : list (string * N)) (key : string) (v : N)
  : res (list (string * N)) :=
  match rev b with
  | [] => Ok [(key, v)]
  | (last, _) :: _ =>
      match String.compare last key with
      | Lt => Ok (b ++ [(key, v)])
      | _ => Err EFst
      end
  end.

(** [search_terms.into_iter().enumerate().for_each(|(i, term)|
      build.insert(term, i as u64).unwrap())] *)
Fixpoint build_fst_from (i : nat) (terms : list string) (b : list (string * N))
  : res (list (string * N)) :=
  match terms with
  | [] => Ok b
  | term :: terms' =>
      match MapBuilder_insert b term (N.of_nat i) with
      | Ok b' => build_fst_from (S i) terms' b'
      | _ => Panic
      end
  end.

(* ------------------------------------------------------------------ *)
(** ** [searcher.rs] *)

Record GeoNamesSearcher := mkSearcher {
  map : FstMap;
  geonames : gmap N GeoNamesEntry;
  search_matches : list (list MatchType)
}.

(** [search_matches.last_mut().unwrap().push(mtch)] *)
Definition push_last {A} (l : list (list A)) (x : A) : res (list (list A)) :=
  match rev l with
  | [] => Panic
  | g :: r => Ok (rev r ++ [g ++ [x]])
  end.

(** The loop over the sorted [query_pairs] in [build]. *)
Fixpoint prepare_terms (pairs : list (string * MatchType)) (last_term : string)
  (search_terms : list string) (search_matches : list (list MatchType))
  : res (list string * list (list MatchType)) :=
  match pairs with
  | [] => Ok (search_terms, search_matches)
  | (term, mtch) :: pairs' =>
      if String.eqb term "" then prepare_terms pairs' last_term search_terms search_matches
      else if String.eqb term last_term then
        let? sm := push_last search_matches mtch in
        prepare_terms pairs' term search_terms sm
      else prepare_terms pairs' term (search_terms ++ [term]) (search_matches ++ [[mtch]])
  end.

(** [query_pairs.sort_by(|a, b| a.0.cmp(&b.0))] *)
Definition sort_pairs (query_pairs : list (string * MatchType)) : list (string * MatchType) :=
  sort_by (fun a b => String.compare a.1 b.1) query_pairs.

(** The part of [build] after ingestion: sort, group, build the FST. *)
Definition build_index (query_pairs : list (string * MatchType))
  (geonames : gmap N GeoNamesEntry) : res GeoNamesSearcher :=
  let query_pairs := sort_pairs query_pairs in
  let? p := prepare_terms query_pairs "" [] [] in
  let '(search_terms, search_matches) := p in
  let? entries := build_fst_from 0 search_terms [] in
  Ok (mkSearcher (mkFstMap entries) geonames search_matches).

Fixpoint fold_res {A B} (f : A -> B -> res B) (l : list A) (b : B) : res B :=
  match l with
  | [] => Ok b
  | a :: l' => let? b' := f a b in fold_res f l' b'
  end.

(** [GeoNamesSearcher::build]; a path is given by the file it names. *)
Definition build `{Std} (gn_paths : list CsvFile) (gn_alternate_paths : option (list CsvFile))
  (gn_alternate_languages : option (list string)) : res GeoNamesSearcher :=
  let? st := fold_res (fun path st => parse_geonames_file path st.1 st.2) gn_paths ([], ∅) in
  let '(query_pairs, geonames) := st in
  let? query_pairs :=
    match gn_alternate_paths with
    | Some paths =>
        fold_res (fun path qp => parse_alternate_names_file path qp geonames gn_alternate_languages)
          paths query_pairs
    | None => Ok query_pairs
    end in
  build_index query_pairs geonames.

(** Expanding one group: [matches.iter().map(|typ| { let gn =
    self.geonames.get(&typ.id()).unwrap(); f(typ, gn) })]. *)
Fixpoint expand_group {B} (geonames : gmap N GeoNamesEntry)
  (f : MatchType -> GeoNamesEntry -> B) (matches : list MatchType) : res (list B) :=
  match matches with
  | [] => Ok []
  | typ :: ms =>
      let? gn := unwrap (geonames !! MatchType_id typ) in
      let? rest := expand_group geonames f ms in
      Ok (f typ gn :: rest)
  end.

(** [GeoNamesSearcher::find] *)
Definition find (s : GeoNamesSearcher) (query : string) : res (list GeoNamesSearchResult) :=
  match Map_get (map s) query with
  | Some gnd =>
      let? matches := index (search_matches s) (N.to_nat gnd) in
      expand_group (geonames s) (GeoNamesSearchResult_new query) matches
  | None => Ok []
  end.

(** The [while let Some((key, gnd)) = stream.next()] loop of [search]. *)
Fixpoint search_loop (s : GeoNamesSearcher) (stream : list (string * N))
  (results : list GeoNamesSearchResult) : res (list GeoNamesSearchResult) :=
  match stream with
  | [] => Ok results
  | (key, gnd) :: stream' =>
      let? matches := index (search_matches s) (N.to_nat gnd) in
      let? rs := expand_group (geonames s) (GeoNamesSearchResult_new key) matches in
      search_loop s stream' (results ++ rs)
  end.

(** [GeoNamesSearcher::search]; [String::from_utf8_lossy] is the identity
    on the keys, which were inserted from [String]s. *)
Definition search (s : GeoNamesSearcher) (query : Automaton) : res (list GeoNamesSearchResult) :=
  let? results := search_loop s (Map_search (map s) query) [] in
  Ok (sort_by GeoNamesSearchResult_cmp results).

Section WithDist.
(** [levenshtein::levenshtein], the edit distance of the [levenshtein]
    crate. *)
Variable levenshtein_dist : string -> string -> nat.

(** The loop of [search_with_dist]. *)
Fixpoint search_with_dist_loop (s : GeoNamesSearcher) (raw : string) (max_dist : option N)
  (stream : list (string * N)) (results : list GeoNamesSearchResultWithDist)
  : res (list GeoNamesSearchResultWithDist) :=
  match stream with
  | [] => Ok results
  | (key, gnd) :: stream' =>
      let dist := levenshtein_dist raw key in
      if match max_dist with
         | Some distance => (0 <? distance)%N && (distance <? N.of_nat dist)%N
         | None => false
         end
      then search_with_dist_loop s raw max_dist stream' results
      else
        let? matches := index (search_matches s) (N.to_nat gnd) in
        let? rs := expand_group (geonames s)
                     (fun typ gn => GeoNamesSearchResultWithDist_new key typ gn dist) matches in
        search_with_dist_loop s raw max_dist stream' (results ++ rs)
  end.

(** [GeoNamesSearcher::search_with_dist] *)
Definition search_with_dist (s : GeoNamesSearcher) (query : Automaton) (raw : string)
  (max_dist : option N) : res (list GeoNamesSearchResultWithDist) :=
  let? results := search_with_dist_loop s raw max_dist (Map_search (map s) query) [] in
  Ok (sort_by GeoNamesSearchResultWithDist_cmp results).
End WithDist.

(* ------------------------------------------------------------------ *)
(** ** Automata of the [fst] crate used by the routes *)

(** [fst::automaton::Str]: the state is the number of bytes of the string
    matched so far, [None] once a byte differs. *)
Definition Str (s : string) : Automaton :=
  {| aut_state := option nat;
     aut_start := Some 0;
     aut_is_match st := match st with Some i => Nat.eqb i (String.length s) | None => false end;
     aut_accept st b :=
       match st with
       | Some i =>
           match String.get i s with
           | Some c => if Ascii.eqb c b then Some (S i) else None
           | None => None
           end
       | None => None
       end |}.

(** [StartsWithStateKind] *)
Inductive StartsWithState (S : Type) := SWDone | SWRunning (inner : S).
Arguments SWDone {S}.
Arguments SWRunning {S} inner.

(** [Automaton::starts_with]: [Done] once the inner automaton matched. *)
Definition starts_with_aut (a : Automaton) : Automaton :=
  {| aut_state := StartsWithState (aut_state a);
     aut_start := if aut_is_match a (aut_start a) then SWDone else SWRunning (aut_start a);
     aut_is_match st := match st with SWDone => true | SWRunning _ => false end;
     aut_accept st b :=
       match st with
       | SWDone => SWDone
       | SWRunning inner =>
           let next := aut_accept a inner b in
           if aut_is_match a next then SWDone else SWRunning next
       end |}.

(** [fst::automaton::Subsequence]: the state counts the bytes of the
    subsequence found so far. *)
Definition Subsequence (subseq : string) : Automaton :=
  {| aut_state := nat;
     aut_start := 0;
     aut_is_match st := Nat.eqb st (String.length subseq);
     aut_accept st b :=
       if Nat.eqb st (String.length subseq) then st
       else match String.get st subseq with
            | Some c => if Ascii.eqb c b then S st else st
            | None => st
            end |}.

(* ------------------------------------------------------------------ *)
(** ** [routes/mod.rs] *)

(** A Rust [Result] value returned to a caller (as opposed to [res],
    which models the effects of running the code). *)
Inductive result (T E : Type) := ROk (t : T) | RErr (e : E).
Arguments ROk {T E} t.
Arguments RErr {T E} e.

Inductive StatusCode := OK | BAD_REQUEST | NOT_ACCEPTABLE.

(** [enum Response]; [starts_with], [fuzzy] and [levenshtein] hand their
    distance-carrying results to the ["results"] case, written
    [ResultsWithDist] here. *)
Inductive Response :=
| Results (rs : list GeoNamesSearchResult)
| ResultsWithDist (rs : list GeoNamesSearchResultWithDist)
| RespError (msg : string).

(** [struct FilterResults] *)
Record FilterResults := mkFilter {
  filter_feature_class : option string;
  filter_feature_code : option string;
  filter_country_code : option string
}.

(** [filter_results] *)
Definition filter_results {T} `{Entry T} (results : list T) (filter : option FilterResults)
  : list T :=
  match filter with
  | None => results
  | Some f =>
      let results :=
        match filter_feature_class f with
        | Some fc => List.filter (fun r => String.eqb (ge_feature_class (entry r)) fc) results
        | None => results
        end in
      let results :=
        match filter_feature_code f with
        | Some fc => List.filter (fun r => String.eqb (ge_feature_code (entry r)) fc) results
        | None => results
        end in
      match filter_country_code f with
      | Some cc => List.filter (fun r => String.eqb (ge_country_code (entry r)) cc) results
      | None => results
      end
  end.

(* ------------------------------------------------------------------ *)
(** ** The route handlers of [routes/] *)

(** [fst::automaton::LevenshteinError] *)
Inductive LevenshteinError := TooManyStates (limit : nat).

Definition LevenshteinError_debug (e : LevenshteinError) : string :=
  match e with TooManyStates n => "TooManyStates(" ++ pretty.pretty n ++ ")" end.

Record RequestFind := mkRequestFind { find_query : string; find_filter : option FilterResults }.
Record RequestRegex := mkRequestRegex { regex_regex : string; regex_filter : option FilterResults }.
Record RequestStartsWith := mkRequestStartsWith {
  sw_query : string; sw_max_dist : N; sw_filter : option FilterResults }.
Record RequestFuzzy := mkRequestFuzzy {
  fuzzy_query : string; fuzzy_max_dist : N; fuzzy_filter : option FilterResults }.
Record RequestLevenshtein := mkRequestLevenshtein {
  lev_query : string; lev_max_dist : option N; lev_state_limit : option nat;
  lev_filter : option FilterResults }.

(** The libraries the route handlers call: the edit distance of the
    [levenshtein] crate, [fst]'s [Levenshtein::new_with_limit] and
    [Levenshtein::new], and [RegexSearchAutomaton::from_str] (which wraps
    [regex_automata]'s DFA compiler; its error is given by its [Debug]
    rendering). *)
Class RouteLibs := {
  levenshtein_dist : string -> string -> nat;
  Levenshtein_new_with_limit : string -> N -> nat -> result Automaton LevenshteinError;
  Levenshtein_new : string -> N -> result Automaton LevenshteinError;
  RegexSearchAutomaton_from_str : string -> result Automaton string
}.

Section Routes.
Context `{RouteLibs} (searcher : GeoNamesSearcher).

(** [routes/find.rs: find] *)
Definition find_route (request : RequestFind) : res (StatusCode * Response) :=
  if String.eqb (find_query request) "" then Ok (BAD_REQUEST, RespError "Empty query") else
  let? rs := find searcher (find_query request) in
  Ok (OK, Results (filter_results rs (find_filter request))).

(** [routes/regex.rs: regex] *)
Definition regex_route (request : RequestRegex) : res (StatusCode * Response) :=
  if String.eqb (regex_regex request) "" then Ok (BAD_REQUEST, RespError "Empty query") else
  match RegexSearchAutomaton_from_str (regex_regex request) with
  | ROk query =>
      let? rs := search searcher query in
      Ok (OK, Results (filter_results rs (regex_filter request)))
  | RErr e => Ok (BAD_REQUEST, RespError ("RegexError: " ++ e))
  end.

(** [routes/starts_with.rs: starts_with] *)
Definition starts_with_route (request : RequestStartsWith) : res (StatusCode * Response) :=
  if String.eqb (sw_query request) "" then Ok (BAD_REQUEST, RespError "Empty query") else
  let query := starts_with_aut (Str (sw_query request)) in
  let? rs := search_with_dist levenshtein_dist searcher query (sw_query request)
               (Some (sw_max_dist request)) in
  Ok (OK, ResultsWithDist (filter_results rs (sw_filter request))).

(** [routes/fuzzy.rs: fuzzy] *)
Definition fuzzy_route (request : RequestFuzzy) : res (StatusCode * Response) :=
  if String.eqb (fuzzy_query request) "" then Ok (BAD_REQUEST, RespError "Empty query") else
  let query := Subsequence (fuzzy_query request) in
  let? rs := search_with_dist levenshtein_dist searcher query (fuzzy_query request)
               (Some (fuzzy_max_dist request)) in
  Ok (OK, ResultsWithDist (filter_results rs (fuzzy_filter request))).

(** [routes/levenshtein.rs: levenshtein_inner] *)
Definition levenshtein_inner (query : string) (state_limit : option nat) (max_dist : option N)
  (filter : option FilterResults)
  : res (result (list GeoNamesSearchResultWithDist) LevenshteinError) :=
  let distance := match max_dist with Some d => d | None => 1%N end in
  let levenshtein_query :=
    match state_limit with
    | Some state_limit => Levenshtein_new_with_limit query distance state_limit
    | None => Levenshtein_new query distance
    end in
  match levenshtein_query with
  | ROk levenshtein_query =>
      let? rs := search_with_dist levenshtein_dist searcher levenshtein_query query max_dist in
      Ok (ROk (filter_results rs filter))
  | RErr error => Ok (RErr error)
  end.

(** [routes/levenshtein.rs: levenshtein] *)
Definition levenshtein_route (request : RequestLevenshtein) : res (StatusCode * Response) :=
  if String.eqb (lev_query request) "" then Ok (BAD_REQUEST, RespError "Empty query") else
  let? r := levenshtein_inner (lev_query request) (lev_state_limit request)
              (lev_max_dist request) (lev_filter request) in
  match r with
  | ROk results => Ok (OK, ResultsWithDist results)
  | RErr error =>
      Ok (NOT_ACCEPTABLE, RespError ("LevenshteinError: " ++ LevenshteinError_debug error))
  end.
End Routes.

(* ------------------------------------------------------------------ *)
(** ** Concrete library functions for running the code on examples *)

Module Concrete.
(** ASCII-only [str::trim] and an [f32] parser that parses nothing. *)
Fixpoint trim_start (s : string) : string :=
  match s with
  | String c s' => if Ascii.eqb c " "%char then trim_start s' else s
  | EmptyString => EmptyString
  end.

#[export] Instance std_concrete : Std := {|
  str_trim s := string_of_list_ascii (rev (list_ascii_of_string
                (trim_start (string_of_list_ascii (rev (list_ascii_of_string (trim_start s)))))));
  f32_from_str _ := None
|}.

(** The edit distance (one row of the dynamic-programming table at a
    time), on bytes; on ASCII strings it is the character distance the
    [levenshtein] crate computes. *)
Fixpoint next_row (c : ascii) (b : list ascii) (prev : list nat) (left : nat) : list nat :=
  match b, prev with
  | bc :: b', p_diag :: ((p_up :: _) as prev') =>
      let v := Nat.min (Nat.min (S p_up) (S left)) (p_diag + if Ascii.eqb c bc then 0 else 1) in
      v :: next_row c b' prev' v
  | _, _ => []
  end.

Definition lev (a b : string) : nat :=
  let b := list_ascii_of_string b in
  let row0 := seq 0 (S (length b)) in
  let rows := fold_left (fun row ic => S ic.1 :: next_row ic.2 b row (S ic.1))
                (combine (seq 0 (String.length a)) (list_ascii_of_string a)) row0 in
  List.last rows 0.

(** The example of the spec: record 1 "Frankfurt" and its German
    preferred name "Frankfurt am Main". *)
Definition ex_primary : CsvFile :=
  Ok [Ok ["1"; "Frankfurt"; "Frankfurt"; ""; "50.11"; "8.68"; "P"; "PPLA"; "DE";
          ""; "05"; ""; ""; ""; ""; "112"]].

Definition ex_alternate : CsvFile :=
  Ok [Ok ["100"; "1"; "de"; "Frankfurt am Main"; "1"; ""; ""; ""]].

(** Two primary rows with the same identifier 1. *)
Definition ex_dup_rows : list (res (list string)) :=
  [Ok ["1"; "Frankfurt"; "Frankfurt"; ""; "50.11"; "8.68"; "P"; "PPLA"; "DE";
       ""; "05"; ""; ""; ""; ""; "112"];
   Ok ["1"; "Francfort"; "Francfort"; ""; "50.11"; "8.68"; "P"; "PPLC"; "FR";
       ""; ""; ""; ""; ""; ""; ""]].

Definition ex_searcher : GeoNamesSearcher :=
  match build [ex_primary] (Some [ex_alternate]) None with
  | Ok s => s
  | _ => mkSearcher (mkFstMap []) ∅ []
  end.

End Concrete.

(* ------------------------------------------------------------------ *)
(** ** Statements of the spec, for comparison with the code *)

(** The flag classification of alternate names as the spec states it:
    only-preferred, only-short, only-colloquial, only-historic, and
    [Alternate] for every other combination. *)
Definition spec_alternate_kind (id : N) (lang from to : string)
  (preferred short colloquial historic : bool) : MatchType :=
  if preferred && negb short && negb colloquial && negb historic then PreferredName id lang
  else if negb preferred && short && negb colloquial && negb historic then ShortName id lang
  else if negb preferred && negb short && colloquial && negb historic then Colloquial id lang
  else if negb preferred && negb short && negb colloquial && historic then Historic id lang from to
  else Alternate id lang.

(** Bytewise order on strings *)
Definition str_le (a b : string) : Prop := String.compare a b <> Gt.
Definition str_lt (a b : string) : Prop := String.compare a b = Lt.

(** The entries [MapBuilder] holds after inserting [terms] with the
    ordinals [i], [i+1], ... *)
Fixpoint numbered (i : nat) (terms : list string) : list (string * N) :=
  match terms with
  | [] => []
  | t :: terms' => (t, N.of_nat i) :: numbered (S i) terms'
  end.

(** The invariant of the grouping loop of [build] after the pairs [P]:
    [search_terms] is strictly increasing, ends in [last_term] (which is
    [""] while it is empty), holds the non-empty terms of [P], and group
    [i] lists, in order, the provenances of the pairs of [P] with term
    [i]. *)
Definition prep_inv (P : list (string * MatchType)) (last_term : string)
  (terms : list string) (groups : list (list MatchType)) : Prop :=
  length groups = length terms /\
  StronglySorted str_lt terms /\
  ((terms = [] /\ last_term = "") \/ exists terms0, terms = terms0 ++ [last_term]) /\
  (forall t, In t terms <-> t <> "" /\ In t (List.map fst P)) /\
  (forall i t, nth_error terms i = Some t ->
     nth_error groups i = Some (List.map snd (List.filter (fun p => String.eqb p.1 t) P))).

(** How one hit [(key, gnd)] of the stream expands. *)
Definition expands_to {B} (s : GeoNamesSearcher) (f : string -> MatchType -> GeoNamesEntry -> B)
  (kv : string * N) (rk : list B) : Prop :=
  exists g, nth_error (search_matches s) (N.to_nat kv.2) = Some g /\
    Forall2 (fun typ r => exists e, geonames s !! MatchType_id typ = Some e /\ r = f kv.1 typ e) g rk.

(** The filtering rule of the spec for [traverse_with_distance]: a match
    is dropped exactly when a nonzero maximum distance is given and the
    match's distance exceeds it. *)
Definition spec_dropped (max_distance : option N) (dist : nat) : Prop :=
  exists d, max_distance = Some d /\ d <> 0%N /\ (d < N.of_nat dist)%N.

(** How one hit [(key, gnd)] of the stream of [search_with_dist] expands:
    to nothing when it is dropped, to its group otherwise. *)
Definition expands_with_dist (levenshtein_dist : string -> string -> nat)
  (s : GeoNamesSearcher) (raw : string) (max_dist : option N)
  (kv : string * N) (rk : list GeoNamesSearchResultWithDist) : Prop :=
  let dist := levenshtein_dist raw kv.1 in
  (spec_dropped max_dist dist /\ rk = []) \/
  (~ spec_dropped max_dist dist /\
   expands_to s (fun key typ gn => GeoNamesSearchResultWithDist_new key typ gn dist) kv rk).

(** Every (term, provenance) pair carries the identifier of a record of
    the Entry Store. *)
Definition pairs_resolve (geonames : gmap N GeoNamesEntry) (query_pairs : list (string * MatchType))
  : Prop :=
  Forall (fun p => is_Some (geonames !! MatchType_id p.2)) query_pairs.

(** The safety invariant of a built index: every ordinal of the FST
    indexes [search_matches], every group is non-empty, and every
    provenance of a group resolves in the Entry Store. *)
Definition index_safe (s : GeoNamesSearcher) : Prop :=
  (forall t v, In (t, v) (fst_entries (map s)) -> N.to_nat v < length (search_matches s)) /\
  (forall g, In g (search_matches s) ->
     g <> [] /\ forall m, In m g -> is_Some (geonames s !! MatchType_id m)).

(** Rows of a primary file that all parse, with what each one yields. *)
Definition rows_parse `{Std} (rows : list (res (list string)))
  (parsed : list (list (string * MatchType) * (N * GeoNamesEntry))) : Prop :=
  Forall2 (fun row p => exists record, row = Ok record /\ parse_geonames_row record = Ok p)
    rows parsed.

(** A result entry passes a [FilterResults] when each field the filter
    sets equals the entry's field. *)
Definition field_ok (wanted : option string) (value : string) : bool :=
  match wanted with Some w => String.eqb value w | None => true end.

Definition filter_matches (filter : option FilterResults) (e : GeoNamesEntry) : bool :=
  match filter with
  | None => true
  | Some f => field_ok (filter_feature_class f) (ge_feature_class e) &&
              field_ok (filter_feature_code f) (ge_feature_code e) &&
              field_ok (filter_country_code f) (ge_country_code e)
  end.

(** The language a provenance carries; primary names carry none. *)
Definition MatchType_lang (m : MatchType) : option string :=
  match m with
  | Name _ | AsciiName _ => None
  | PreferredName _ lang | ShortName _ lang | Colloquial _ lang
  | Historic _ lang _ _ | Alternate _ lang => Some lang
  end.


(* ================================================================== *)
(** * Properties *)

(* ------------------------------------------------------------------ *)
(** ** Bytewise string order *)

Lemma str_compare_refl (s : string) : String.compare s s = Eq.
Proof.
  induction s as [|c s IH]; simpl; [reflexivity|].
  unfold Ascii.compare. rewrite N.compare_refl. exact IH.
Qed.

Lemma str_compare_Eq (a b : string) : String.compare a b = Eq <-> a = b.
Proof.
  split; [apply String.compare_eq_iff|intros ->; apply str_compare_refl].
Qed.

Lemma str_lt_trans (a b c : string) : str_lt a b -> str_lt b c -> str_lt a c.
Proof.
  unfold str_lt. revert b c.
  induction a as [|x a IH]; intros [|y b] [|z c]; simpl; try congruence.
  unfold Ascii.compare.
  destruct (N.compare_spec (N_of_ascii x) (N_of_ascii y)) as [Hxy|Hxy|Hxy];
  destruct (N.compare_spec (N_of_ascii y) (N_of_ascii z)) as [Hyz|Hyz|Hyz];
  try congruence; intros H1 H2.
  all: first
    [ rewrite Hxy, Hyz, N.compare_refl; eauto
    | assert (N.compare (N_of_ascii x) (N_of_ascii z) = Lt) as ->
        by (apply N.compare_lt_iff; lia); reflexivity ].
Qed.

Lemma str_le_lt_or_eq (a b : string) : str_le a b <-> str_lt a b \/ a = b.
Proof.
  unfold str_le, str_lt. rewrite <- str_compare_Eq.
  destruct (String.compare a b); intuition congruence.
Qed.

Lemma str_le_trans (a b c : string) : str_le a b -> str_le b c -> str_le a c.
Proof.
  rewrite !str_le_lt_or_eq.
  intros [H1| ->] [H2| ->]; eauto using str_lt_trans.
Qed.

Lemma str_lt_irrefl (a : string) : ~ str_lt a a.
Proof. unfold str_lt. rewrite str_compare_refl. discriminate. Qed.

Lemma str_lt_le_trans (a b c : string) : str_lt a b -> str_le b c -> str_lt a c.
Proof. rewrite str_le_lt_or_eq. intros H [H2| ->]; eauto using str_lt_trans. Qed.

Lemma str_le_lt_trans (a b c : string) : str_le a b -> str_lt b c -> str_lt a c.
Proof. rewrite str_le_lt_or_eq. intros [H1| ->] H; eauto using str_lt_trans. Qed.

Lemma str_lt_le (a b : string) : str_lt a b -> str_le a b.
Proof. unfold str_lt, str_le. congruence. Qed.

Lemma str_le_antisym (a b : string) : str_le a b -> str_le b a -> a = b.
Proof.
  unfold str_le. rewrite (String.compare_antisym b a).
  intros H1 H2. apply String.compare_eq_iff.
  destruct (String.compare a b); simpl in *; congruence.
Qed.

Lemma str_empty_le (s : string) : str_le "" s.
Proof. unfold str_le. destruct s; simpl; discriminate. Qed.

(* ------------------------------------------------------------------ *)
(** ** The stable sort *)

Section SortFacts.
Context {A : Type} (cmp : A -> A -> comparison).

Lemma insert_by_perm (x : A) (l : list A) : Permutation (insert_by cmp x l) (x :: l).
Proof.
  induction l as [|y l IH]; simpl; [auto|].
  destruct (cmp x y); auto.
  rewrite IH. apply perm_swap.
Qed.

Lemma sort_by_perm (l : list A) : Permutation (sort_by cmp l) l.
Proof.
  induction l as [|x l IH]; simpl; [auto|].
  rewrite insert_by_perm. auto.
Qed.

(** Only the antisymmetry of [Ord::cmp] is needed for the output to be
    sorted. *)
Hypothesis cmp_antisym : forall x y, cmp x y = CompOpp (cmp y x).

Let le x y := cmp x y <> Gt.

Lemma insert_by_sorted (x : A) (l : list A) :
  Sorted le l -> Sorted le (insert_by cmp x l).
Proof.
  induction 1 as [|y l Hs IH Hhd]; simpl; [auto|].
  destruct (cmp x y) eqn:E.
  - constructor; auto. constructor. unfold le. congruence.
  - constructor; auto. constructor. unfold le. congruence.
  - constructor; [exact IH|].
    destruct l as [|z l]; simpl.
    + constructor. unfold le. rewrite cmp_antisym, E. discriminate.
    + inversion Hhd as [|? ? Hyz]; subst.
      destruct (cmp x z); constructor; unfold le;
        try (rewrite cmp_antisym, E; discriminate); exact Hyz.
Qed.

Lemma sort_by_sorted (l : list A) : Sorted le (sort_by cmp l).
Proof.
  induction l as [|x l IH]; simpl; [constructor|].
  apply insert_by_sorted. exact IH.
Qed.

(** Stability: the elements a predicate selects keep their order when
    the predicate selects only elements comparing [Eq] to each other. *)
Lemma insert_by_filter_out (P : A -> bool) (x : A) (l : list A) :
  P x = false -> List.filter P (insert_by cmp x l) = List.filter P l.
Proof.
  intros Hx. induction l as [|y l IH]; simpl.
  - rewrite Hx. reflexivity.
  - destruct (cmp x y); simpl; rewrite ?Hx; try reflexivity.
    destruct (P y); [f_equal|]; exact IH.
Qed.

Lemma insert_by_filter_in (P : A -> bool) (x : A) (l : list A) :
  P x = true -> (forall y, In y l -> P y = true -> cmp x y = Eq) ->
  List.filter P (insert_by cmp x l) = x :: List.filter P l.
Proof.
  intros Hx. induction l as [|y l IH]; simpl; intros Hl.
  - rewrite Hx. reflexivity.
  - destruct (cmp x y) eqn:E; simpl; rewrite ?Hx; try reflexivity.
    destruct (P y) eqn:Py.
    + rewrite (Hl y (or_introl eq_refl) Py) in E. discriminate.
    + apply IH. intros z Hz. apply Hl. auto.
Qed.

Lemma sort_by_filter (P : A -> bool) (l : list A) :
  (forall x y, P x = true -> P y = true -> cmp x y = Eq) ->
  List.filter P (sort_by cmp l) = List.filter P l.
Proof.
  intros HP. induction l as [|x l IH]; simpl; [reflexivity|].
  destruct (P x) eqn:Px.
  - rewrite insert_by_filter_in.
    + f_equal. exact IH.
    + exact Px.
    + intros y _ Py. apply HP; auto.
  - rewrite insert_by_filter_out; auto.
Qed.
End SortFacts.

(* ------------------------------------------------------------------ *)
(** ** Alternate-name classification *)

(** C2: for an alternate-name row that passes the language and identifier
    filters and has its name and four flag columns, ingestion pushes one
    pair whose provenance is chosen by the exclusive flag pattern
    (only-preferred, only-short, only-colloquial, only-historic with its
    from/to columns or [""] when absent, otherwise [Alternate]); no flag
    combination is an error. *)
Theorem alternate_flags_exclusive (include_languages : option (list string))
  (gn : gmap N GeoNamesEntry) (record : list string) (lang id_s name p s c h : string) (id : N) :
  nth_error record 2 = Some lang ->
  match include_languages with Some set => In lang set | None => True end ->
  nth_error record 1 = Some id_s -> parse_u64 id_s = Ok id -> is_Some (gn !! id) ->
  nth_error record 3 = Some name ->
  nth_error record 4 = Some p -> nth_error record 5 = Some s ->
  nth_error record 6 = Some c -> nth_error record 7 = Some h ->
  parse_alternate_row include_languages gn record =
    Ok (Some (name, spec_alternate_kind id lang
                      (match nth_error record 8 with Some f => f | None => "" end)
                      (match nth_error record 9 with Some t => t | None => "" end)
                      (String.eqb p "1") (String.eqb s "1")
                      (String.eqb c "1") (String.eqb h "1"))).
Proof.
  intros Hl Hin Hi Hp Hg Hn H4 H5 H6 H7.
  unfold parse_alternate_row. rewrite Hl. cbn [res_bind ok_or].
  assert (Hkeep : match include_languages with
                  | Some set => negb (existsb (String.eqb lang) set)
                  | None => false end = false).
  { destruct include_languages as [set|]; [|reflexivity].
    apply negb_false_iff, existsb_exists. exists lang. split; [exact Hin|].
    apply String.eqb_refl. }
  rewrite Hkeep, Hi. cbn [res_bind ok_or]. rewrite Hp. cbn [res_bind].
  rewrite (bool_decide_eq_true_2 _ Hg). cbn [negb].
  rewrite Hn, H4, H5, H6, H7. cbn [res_bind ok_or].
  unfold unwrap_or, alternate_match_type, spec_alternate_kind.
  destruct (String.eqb p "1"), (String.eqb s "1"), (String.eqb c "1"), (String.eqb h "1");
    reflexivity.
Qed.

Lemma alternate_flags_exclusive_witness :
  let gn : gmap N GeoNamesEntry :=
    {[ 1%N := mkGeoNamesEntry 1 "Frankfurt" f32_NAN f32_NAN "P" "PPLA" "DE" "" "" "" "" None ]} in
  let record := ["7"; "1"; "de"; "Frankfurt am Main"; "1"; "1"; ""; ""] in
  parse_alternate_row (Some ["de"]) gn record =
    Ok (Some ("Frankfurt am Main", spec_alternate_kind 1 "de" "" "" true true false false)).
Proof.
  intros gn record.
  apply (alternate_flags_exclusive (Some ["de"]) gn record "de" "1" "Frankfurt am Main"
           "1" "1" "" "" 1); try reflexivity.
  - simpl. auto.
  - unfold gn. rewrite lookup_singleton_eq. eexists. reflexivity.
Defined.

(* ------------------------------------------------------------------ *)
(** ** List facts used by the index builder *)

Section ListFacts.
Context {A : Type}.

Lemma ss_cross (R : A -> A -> Prop) (l1 l2 : list A) x y :
  StronglySorted R (l1 ++ l2) -> In x l1 -> In y l2 -> R x y.
Proof.
  induction l1 as [|z l1 IH]; simpl; [tauto|].
  intros Hs Hx Hy. apply StronglySorted_inv in Hs as [Hs Hall].
  destruct Hx as [<-|Hx].
  - rewrite List.Forall_forall in Hall. apply Hall, in_or_app. auto.
  - eauto.
Qed.

Lemma ss_snoc (R : A -> A -> Prop) (l : list A) x :
  StronglySorted R l -> (forall y, In y l -> R y x) -> StronglySorted R (l ++ [x]).
Proof.
  induction 1 as [|z l Hs IH Hall]; simpl; intros Hx.
  - repeat constructor.
  - constructor.
    + apply IH. intros y Hy. apply Hx. auto.
    + apply Forall_app. split; [exact Hall|]. constructor; [apply Hx; auto|constructor].
Qed.

Lemma sorted_impl (R1 R2 : A -> A -> Prop) (l : list A) :
  (forall x y, R1 x y -> R2 x y) -> Sorted R1 l -> Sorted R2 l.
Proof.
  intros HR. induction 1 as [|x l Hs IH Hhd]; constructor; [exact IH|].
  destruct Hhd; constructor. apply HR. assumption.
Qed.

Lemma nth_error_snoc_inv (l : list A) x i y :
  nth_error (l ++ [x]) i = Some y ->
  (i < length l /\ nth_error l i = Some y) \/ (i = length l /\ y = x).
Proof.
  intros H. destruct (Nat.lt_ge_cases i (length l)) as [Hi|Hi].
  - left. rewrite nth_error_app1 in H by exact Hi. auto.
  - right. rewrite nth_error_app2 in H by exact Hi.
    destruct (i - length l) eqn:E; simpl in H.
    + split; [lia|congruence].
    + destruct n; discriminate.
Qed.

Lemma nth_error_snoc_last (l : list A) x : nth_error (l ++ [x]) (length l) = Some x.
Proof. rewrite nth_error_app2 by lia. rewrite Nat.sub_diag. reflexivity. Qed.

Lemma snoc_of_length (l : list A) n : length l = S n -> exists l0 x, l = l0 ++ [x].
Proof.
  intros H. destruct (rev l) as [|x r] eqn:E.
  - apply (f_equal (@length A)) in E. rewrite length_rev in E. simpl in E. lia.
  - exists (rev r), x. rewrite <- (rev_involutive l), E. reflexivity.
Qed.
End ListFacts.

Lemma filter_key_absent (P : list (string * MatchType)) t :
  ~ In t (List.map fst P) -> List.filter (fun p => String.eqb p.1 t) P = [].
Proof.
  induction P as [|[k m] P IH]; simpl; [reflexivity|].
  intros Hn. destruct (String.eqb_spec k t) as [->|Hne].
  - exfalso. auto.
  - apply IH. auto.
Qed.

Lemma filter_snoc_other (P : list (string * MatchType)) t m t' :
  t <> t' ->
  List.filter (fun p => String.eqb p.1 t') (P ++ [(t, m)]) =
  List.filter (fun p => String.eqb p.1 t') P.
Proof.
  intros Hne. rewrite List.filter_app. simpl.
  destruct (String.eqb_spec t t') as [E|_]; [contradiction|].
  apply app_nil_r.
Qed.

Lemma filter_snoc_same (P : list (string * MatchType)) t m :
  List.map snd (List.filter (fun p => String.eqb p.1 t) (P ++ [(t, m)])) =
  List.map snd (List.filter (fun p => String.eqb p.1 t) P) ++ [m].
Proof.
  rewrite List.filter_app. simpl. rewrite String.eqb_refl, map_app. reflexivity.
Qed.

(* ------------------------------------------------------------------ *)
(** ** The grouping loop of [build] *)

Lemma prep_inv_nil : prep_inv [] "" [] [].
Proof.
  unfold prep_inv. split; [reflexivity|]. split; [constructor|].
  split; [left; auto|]. split.
  - intros t. simpl. tauto.
  - intros i t H. destruct i; discriminate.
Qed.

Lemma prepare_terms_correct (R : list (string * MatchType)) :
  forall P last_term terms groups,
  prep_inv P last_term terms groups ->
  StronglySorted (fun a b => str_le a.1 b.1) (P ++ R) ->
  exists terms' groups', prepare_terms R last_term terms groups = Ok (terms', groups') /\
    exists last', prep_inv (P ++ R) last' terms' groups'.
Proof.
  induction R as [|[t m] R IH]; intros P last_term terms groups Hinv Hs.
  { exists terms, groups. split; [reflexivity|]. exists last_term. rewrite app_nil_r. exact Hinv. }
  assert (HP : forall x, In x P -> str_le x.1 t).
  { intros x Hx. apply (ss_cross _ P ((t, m) :: R) x (t, m) Hs Hx). left. reflexivity. }
  assert (Hs' : StronglySorted (fun a b => str_le a.1 b.1) ((P ++ [(t, m)]) ++ R)).
  { rewrite <- app_assoc. exact Hs. }
  replace (P ++ (t, m) :: R) with ((P ++ [(t, m)]) ++ R) by (rewrite <- app_assoc; reflexivity).
  destruct Hinv as (Hlen & Hsort & Hlast & Hin & Hgrp).
  simpl. destruct (String.eqb_spec t "") as [Ht|Ht].
  - (* an empty term is skipped *)
    subst t. apply (IH (P ++ [("", m)]) last_term terms groups); [|exact Hs'].
    refine (conj Hlen (conj Hsort (conj Hlast (conj _ _)))).
    + intros t'. split.
      * intros Hx. apply Hin in Hx as [Hne Hx]. split; [exact Hne|].
        rewrite map_app. apply in_or_app. auto.
      * intros [Hne Hx]. apply Hin. split; [exact Hne|].
        rewrite map_app in Hx. apply in_app_or in Hx as [Hx|[Hx|[]]]; [exact Hx|].
        simpl in Hx. congruence.
    + intros i t' Hi. rewrite filter_snoc_other; [apply Hgrp; exact Hi|].
      intros <-. apply (proj1 (Hin "")); [eapply nth_error_In; exact Hi|reflexivity].
  - destruct (String.eqb_spec t last_term) as [Hl|Hl].
    + (* the same term as before: the provenance joins the last group *)
      subst last_term.
      destruct Hlast as [[_ Hl]|[terms0 Hterms]]; [contradiction|].
      assert (Hg : length groups = S (length terms0)).
      { rewrite Hlen, Hterms, length_app. simpl. lia. }
      destruct (snoc_of_length groups _ Hg) as (groups0 & g & ->).
      rewrite length_app in Hg. simpl in Hg.
      assert (Hg0 : length groups0 = length terms0) by lia.
      unfold push_last. rewrite rev_app_distr. simpl. rewrite rev_involutive.
      cbn [res_bind].
      apply (IH (P ++ [(t, m)]) t terms (groups0 ++ [g ++ [m]])); [|exact Hs'].
      subst terms.
      assert (Hlt : forall t', In t' terms0 -> str_lt t' t).
      { intros t' Ht'. apply (ss_cross str_lt terms0 [t] t' t Hsort Ht'). left. reflexivity. }
      refine (conj _ (conj Hsort (conj _ (conj _ _)))).
      * rewrite !length_app. simpl. lia.
      * right. exists terms0. reflexivity.
      * intros t'. split.
        -- intros Hx. apply Hin in Hx as [Hne Hx]. split; [exact Hne|].
           rewrite map_app. apply in_or_app. auto.
        -- intros [Hne Hx]. rewrite map_app in Hx. apply in_app_or in Hx as [Hx|[Hx|[]]].
           ++ apply Hin. auto.
           ++ simpl in Hx. subst. apply in_or_app. right. left. reflexivity.
      * intros i t' Hi. pose proof (Hgrp i t' Hi) as Hgi.
        apply nth_error_snoc_inv in Hi as [[Hi Hi']|[-> ->]].
        -- rewrite nth_error_app1 in Hgi |- * by lia.
           rewrite filter_snoc_other; [exact Hgi|].
           intros <-. apply (str_lt_irrefl t), Hlt. eapply nth_error_In. exact Hi'.
        -- rewrite <- Hg0, nth_error_snoc_last in Hgi |- *.
           injection Hgi as Hgi. subst g. f_equal. rewrite filter_snoc_same. reflexivity.
    + (* a new term: a new singleton group *)
      assert (Hnew : forall t', In t' terms -> str_lt t' t).
      { intros t' Ht'. pose proof Ht' as Ht''. apply Hin in Ht'' as [_ Hx].
        apply in_map_iff in Hx as [[k m'] [Hk Hx]]. simpl in Hk. subst k.
        pose proof (HP _ Hx) as Hle. simpl in Hle.
        apply str_le_lt_or_eq in Hle as [Hle| ->]; [exact Hle|].
        exfalso. destruct Hlast as [[-> _]|[terms0 ->]]; [exact Ht'|].
        assert (Hlast_in : In last_term (terms0 ++ [last_term])) by (apply in_or_app; right; left; auto).
        apply Hin in Hlast_in as [_ Hx'].
        apply in_map_iff in Hx' as [[k m''] [Hk Hx']]. simpl in Hk. subst k.
        pose proof (HP _ Hx') as Hle'. simpl in Hle'.
        apply in_app_or in Ht' as [Ht'|[Ht'|[]]]; [|congruence].
        pose proof (ss_cross str_lt terms0 [last_term] t last_term Hsort Ht' (or_introl eq_refl)).
        apply (str_lt_irrefl t). eapply str_lt_le_trans; eassumption. }
      apply (IH (P ++ [(t, m)]) t (terms ++ [t]) (groups ++ [[m]])); [|exact Hs'].
      refine (conj _ (conj _ (conj _ (conj _ _)))).
      * rewrite !length_app. simpl. lia.
      * apply ss_snoc; assumption.
      * right. exists terms. reflexivity.
      * intros t'. split.
        -- intros Hx. apply in_app_or in Hx as [Hx|[Hx|[]]].
           ++ apply Hin in Hx as [Hne Hx]. split; [exact Hne|].
              rewrite map_app. apply in_or_app. auto.
           ++ subst. split; [exact Ht|]. rewrite map_app. apply in_or_app. right. left. reflexivity.
        -- intros [Hne Hx]. rewrite map_app in Hx. apply in_or_app.
           apply in_app_or in Hx as [Hx|[Hx|[]]]; [left; apply Hin; auto|right; left; auto].
      * intros i t' Hi.
        apply nth_error_snoc_inv in Hi as [[Hi Hi']|[-> ->]].
        -- rewrite nth_error_app1 by lia.
           rewrite filter_snoc_other; [apply Hgrp; exact Hi'|].
           intros <-. apply (str_lt_irrefl t), Hnew. eapply nth_error_In. exact Hi'.
        -- rewrite <- Hlen, nth_error_snoc_last. f_equal.
           rewrite filter_snoc_same, filter_key_absent; [reflexivity|].
           intros Hx. apply (str_lt_irrefl t), Hnew, Hin. auto.
Qed.

(* ------------------------------------------------------------------ *)
(** ** The FST built from the unique terms *)

Lemma build_fst_from_ok (terms : list string) :
  forall i b,
  StronglySorted str_lt terms ->
  (b = [] \/ exists b0 k v, b = b0 ++ [(k, v)] /\ forall t, In t terms -> str_lt k t) ->
  build_fst_from i terms b = Ok (b ++ numbered i terms).
Proof.
  induction terms as [|t terms IH]; intros i b Hs Hb; simpl.
  { rewrite app_nil_r. reflexivity. }
  apply StronglySorted_inv in Hs as [Hs Hall].
  rewrite List.Forall_forall in Hall.
  assert (Hins : MapBuilder_insert b t (N.of_nat i) = Ok (b ++ [(t, N.of_nat i)])).
  { unfold MapBuilder_insert. destruct Hb as [->|(b0 & k & v & -> & Hk)]; [reflexivity|].
    rewrite rev_app_distr. simpl. rewrite (Hk t (or_introl eq_refl)). reflexivity. }
  rewrite Hins, IH; [|exact Hs|].
  - rewrite <- app_assoc. reflexivity.
  - right. exists b, t, (N.of_nat i). split; [reflexivity|]. exact Hall.
Qed.

Lemma ss_lt_NoDup (terms : list string) : StronglySorted str_lt terms -> List.NoDup terms.
Proof.
  induction 1 as [|t terms Hs IH Hall]; constructor; [|exact IH].
  intros Hin. rewrite List.Forall_forall in Hall. apply (str_lt_irrefl t), Hall, Hin.
Qed.

Lemma assoc_get_numbered (terms : list string) :
  forall i t v, List.NoDup terms ->
  assoc_get (numbered i terms) t = Some v <->
  exists j, nth_error terms j = Some t /\ v = N.of_nat (i + j).
Proof.
  induction terms as [|t0 terms IH]; intros i t v Hnd; simpl.
  { split; [discriminate|]. intros [[|j] [H _]]; discriminate. }
  apply List.NoDup_cons_iff in Hnd as [Hnin Hnd].
  destruct (String.eqb_spec t0 t) as [->|Hne].
  - split.
    + intros [= <-]. exists 0. split; [reflexivity|]. f_equal. lia.
    + intros [[|j] [Hj ->]].
      * f_equal. f_equal. lia.
      * exfalso. apply Hnin. eapply nth_error_In. exact Hj.
  - rewrite IH by exact Hnd. split.
    + intros [j [Hj ->]]. exists (S j). split; [exact Hj|]. f_equal. lia.
    + intros [[|j] [Hj ->]].
      * simpl in Hj. congruence.
      * exists j. split; [exact Hj|]. f_equal. lia.
Qed.

(** C1: [build_index] (the part of [GeoNamesSearcher::build] after
    ingestion) always succeeds; it stable-sorts the pairs by term,
    bytewise ascending; the grouping pass yields a strictly increasing
    list of unique terms, exactly the non-empty terms of the input, and
    one group per term, group [i] being the provenances of the pairs with
    term [unique_term[i]] in their input order; the FST maps each unique
    term to its ordinal [i] and maps no other string. *)
Theorem build_index_groups (query_pairs : list (string * MatchType)) (gn : gmap N GeoNamesEntry) :
  exists (s : GeoNamesSearcher) (unique_term : list string),
    build_index query_pairs gn = Ok s /\
    Sorted (fun a b => str_le a.1 b.1) (sort_pairs query_pairs) /\
    Permutation (sort_pairs query_pairs) query_pairs /\
    (forall t, List.filter (fun p => String.eqb p.1 t) (sort_pairs query_pairs) =
               List.filter (fun p => String.eqb p.1 t) query_pairs) /\
    prepare_terms (sort_pairs query_pairs) "" [] [] = Ok (unique_term, search_matches s) /\
    StronglySorted str_lt unique_term /\
    (forall t, In t unique_term <-> t <> "" /\ exists m, In (t, m) query_pairs) /\
    length (search_matches s) = length unique_term /\
    (forall i t, nth_error unique_term i = Some t ->
       nth_error (search_matches s) i =
         Some (List.map snd (List.filter (fun p => String.eqb p.1 t) query_pairs))) /\
    (forall t v, Map_get (map s) t = Some v <->
       exists i, nth_error unique_term i = Some t /\ v = N.of_nat i) /\
    geonames s = gn.
Proof.
  set (cmp := fun a b : string * MatchType => String.compare a.1 b.1).
  assert (Hsorted : Sorted (fun a b => str_le a.1 b.1) (sort_pairs query_pairs)).
  { apply (sort_by_sorted cmp). intros x y. apply String.compare_antisym. }
  assert (Hperm : Permutation (sort_pairs query_pairs) query_pairs) by apply sort_by_perm.
  assert (Hstable : forall t, List.filter (fun p => String.eqb p.1 t) (sort_pairs query_pairs) =
                              List.filter (fun p => String.eqb p.1 t) query_pairs).
  { intros t. apply sort_by_filter. intros x y Hx Hy.
    apply String.eqb_eq in Hx, Hy. unfold cmp. rewrite Hx, Hy. apply str_compare_refl. }
  assert (Hss : StronglySorted (fun a b => str_le a.1 b.1) ([] ++ sort_pairs query_pairs)).
  { apply Sorted_StronglySorted; [|exact Hsorted].
    intros x y z. apply str_le_trans. }
  destruct (prepare_terms_correct _ [] "" [] [] prep_inv_nil Hss)
    as (terms & groups & Hprep & last' & Hlen & Hsort & _ & Hin & Hgrp).
  assert (Hfst : build_fst_from 0 terms [] = Ok (numbered 0 terms))
    by (apply build_fst_from_ok; auto).
  exists (mkSearcher (mkFstMap (numbered 0 terms)) gn groups), terms.
  split.
  { unfold build_index. rewrite Hprep. cbn [res_bind]. rewrite Hfst. reflexivity. }
  split; [exact Hsorted|]. split; [exact Hperm|]. split; [exact Hstable|].
  split; [exact Hprep|]. split; [exact Hsort|].
  split; [|split; [exact Hlen|split; [|split; [|reflexivity]]]].
  - intros t. rewrite Hin. simpl. split; intros [Hne Hx]; split; auto.
    + apply in_map_iff in Hx as [[k m] [Hk Hx]]. simpl in Hk. subst k.
      exists m. eapply Permutation_in; [exact Hperm|exact Hx].
    + destruct Hx as [m Hx]. apply in_map_iff. exists (t, m). split; [reflexivity|].
      eapply Permutation_in; [symmetry; exact Hperm|exact Hx].
  - intros i t Hi. simpl. rewrite (Hgrp i t Hi). simpl. rewrite Hstable. reflexivity.
  - intros t v. unfold Map_get. simpl. rewrite assoc_get_numbered by (apply ss_lt_NoDup; exact Hsort).
    reflexivity.
Qed.

(* ------------------------------------------------------------------ *)
(** ** The comparators of [data.rs] *)

Lemma then_cmp_antisym (c c' : comparison) (k k' : unit -> comparison) :
  c = CompOpp c' -> k tt = CompOpp (k' tt) -> then_cmp c k = CompOpp (then_cmp c' k').
Proof. intros -> Hk. destruct c'; simpl; auto. Qed.

Lemma MatchType_cmp_antisym (a b : MatchType) : MatchType_cmp a b = CompOpp (MatchType_cmp b a).
Proof. apply then_cmp_antisym; apply N.compare_antisym. Qed.

(** [MatchType] order: provenance rank, then record identifier. *)
Lemma MatchType_cmp_le (a b : MatchType) :
  MatchType_cmp a b <> Gt <->
  (MatchType_ord a < MatchType_ord b)%N \/
  (MatchType_ord a = MatchType_ord b /\ (MatchType_id a <= MatchType_id b)%N).
Proof.
  unfold MatchType_cmp, then_cmp.
  destruct (N.compare_spec (MatchType_ord a) (MatchType_ord b)) as [H|H|H].
  - rewrite N.compare_le_iff. lia.
  - split; [intros _; left; exact H|congruence].
  - split; [congruence|lia].
Qed.

Lemma GeoNamesSearchResult_cmp_antisym (a b : GeoNamesSearchResult) :
  GeoNamesSearchResult_cmp a b = CompOpp (GeoNamesSearchResult_cmp b a).
Proof. apply MatchType_cmp_antisym. Qed.

Lemma GeoNamesSearchResultWithDist_cmp_antisym (a b : GeoNamesSearchResultWithDist) :
  GeoNamesSearchResultWithDist_cmp a b = CompOpp (GeoNamesSearchResultWithDist_cmp b a).
Proof.
  apply then_cmp_antisym; [apply Nat.compare_antisym|apply MatchType_cmp_antisym].
Qed.

Lemma GeoNamesSearchResultWithDist_cmp_le (a b : GeoNamesSearchResultWithDist) :
  GeoNamesSearchResultWithDist_cmp a b <> Gt <->
  d_distance a < d_distance b \/
  (d_distance a = d_distance b /\ MatchType_cmp (mk_typ (d_key a)) (mk_typ (d_key b)) <> Gt).
Proof.
  unfold GeoNamesSearchResultWithDist_cmp, then_cmp, MatchKey_cmp.
  destruct (Nat.compare_spec (d_distance a) (d_distance b)) as [H|H|H].
  - split; [intros Hc; right; auto|intros [Hc|[_ Hc]]; [lia|exact Hc]].
  - split; [intros _; left; exact H|congruence].
  - split; [congruence|lia].
Qed.

(* ------------------------------------------------------------------ *)
(** ** Expanding the hits of a traversal *)

Lemma expand_group_ok {B} (gn : gmap N GeoNamesEntry) (f : MatchType -> GeoNamesEntry -> B)
  (g : list MatchType) (rs : list B) :
  expand_group gn f g = Ok rs ->
  Forall2 (fun typ r => exists e, gn !! MatchType_id typ = Some e /\ r = f typ e) g rs.
Proof.
  revert rs. induction g as [|typ g IH]; simpl; intros rs H.
  - injection H as <-. constructor.
  - destruct (gn !! MatchType_id typ) as [e|] eqn:E; simpl in H; [|discriminate].
    destruct (expand_group gn f g) as [rest| |] eqn:E2; simpl in H; try discriminate.
    injection H as <-. constructor; eauto.
Qed.

Lemma search_loop_ok (s : GeoNamesSearcher) (stream : list (string * N)) :
  forall acc rs, search_loop s stream acc = Ok rs ->
  exists per_key, Forall2 (expands_to s GeoNamesSearchResult_new) stream per_key /\
    rs = acc ++ concat per_key.
Proof.
  induction stream as [|[key gnd] stream IH]; simpl; intros acc rs H.
  - injection H as <-. exists []. split; [constructor|]. symmetry. apply app_nil_r.
  - unfold index, unwrap in H.
    destruct (nth_error (search_matches s) (N.to_nat gnd)) as [g|] eqn:Eg; simpl in H; [|discriminate].
    destruct (expand_group (geonames s) (GeoNamesSearchResult_new key) g) as [rk| |] eqn:Er;
      simpl in H; try discriminate.
    destruct (IH _ _ H) as (per_key & Hf & ->).
    exists (rk :: per_key). split.
    + constructor; [|exact Hf]. exists g. split; [exact Eg|]. apply expand_group_ok. exact Er.
    + simpl. rewrite <- app_assoc. reflexivity.
Qed.

(** C4: when [search] returns, its results are the expansion of the group
    of every key the automaton accepts (each provenance with the entry of
    its record), all accumulated, in the order provenance rank
    ascending, then record identifier ascending; the comparison ignores
    the matched term (and the entry). *)
Theorem search_sorted_by_match_key (s : GeoNamesSearcher) (a : Automaton)
  (rs : list GeoNamesSearchResult) :
  search s a = Ok rs ->
  (exists per_key, Forall2 (expands_to s GeoNamesSearchResult_new) (Map_search (map s) a) per_key /\
     Permutation rs (concat per_key)) /\
  Sorted (fun r1 r2 =>
            let t1 := mk_typ (r_key r1) in let t2 := mk_typ (r_key r2) in
            (MatchType_ord t1 < MatchType_ord t2)%N \/
            (MatchType_ord t1 = MatchType_ord t2 /\ (MatchType_id t1 <= MatchType_id t2)%N)) rs /\
  (forall n1 n2 n1' n2' t1 t2 e1 e2 e1' e2',
     GeoNamesSearchResult_cmp (mkResult (mkMatchKey n1 t1) e1) (mkResult (mkMatchKey n2 t2) e2) =
     GeoNamesSearchResult_cmp (mkResult (mkMatchKey n1' t1) e1') (mkResult (mkMatchKey n2' t2) e2')).
Proof.
  unfold search. intros H.
  destruct (search_loop s (Map_search (map s) a) []) as [results| |] eqn:E;
    simpl in H; try discriminate.
  injection H as <-.
  split; [|split].
  - destruct (search_loop_ok _ _ _ _ E) as (per_key & Hf & ->).
    exists per_key. split; [exact Hf|]. apply sort_by_perm.
  - eapply sorted_impl; [|apply (sort_by_sorted GeoNamesSearchResult_cmp);
                          exact GeoNamesSearchResult_cmp_antisym].
    intros x y Hxy. apply MatchType_cmp_le. exact Hxy.
  - reflexivity.
Qed.

Lemma search_sorted_by_match_key_witness :
  exists rs, search Concrete.ex_searcher (starts_with_aut (Str "Frank")) = Ok rs /\
  ((exists per_key, Forall2 (expands_to Concrete.ex_searcher GeoNamesSearchResult_new)
                      (Map_search (map Concrete.ex_searcher) (starts_with_aut (Str "Frank"))) per_key /\
     Permutation rs (concat per_key)) /\
  Sorted (fun r1 r2 =>
            let t1 := mk_typ (r_key r1) in let t2 := mk_typ (r_key r2) in
            (MatchType_ord t1 < MatchType_ord t2)%N \/
            (MatchType_ord t1 = MatchType_ord t2 /\ (MatchType_id t1 <= MatchType_id t2)%N)) rs /\
  (forall n1 n2 n1' n2' t1 t2 e1 e2 e1' e2',
     GeoNamesSearchResult_cmp (mkResult (mkMatchKey n1 t1) e1) (mkResult (mkMatchKey n2 t2) e2) =
     GeoNamesSearchResult_cmp (mkResult (mkMatchKey n1' t1) e1') (mkResult (mkMatchKey n2' t2) e2'))).
Proof.
  destruct (search Concrete.ex_searcher (starts_with_aut (Str "Frank"))) as [rs| |] eqn:E.
  - exists rs. split; [reflexivity|]. apply search_sorted_by_match_key. exact E.
  - vm_compute in E. discriminate.
  - vm_compute in E. discriminate.
Defined.

Lemma dropped_iff (max_dist : option N) (dist : nat) :
  match max_dist with
  | Some distance => (0 <? distance)%N && (distance <? N.of_nat dist)%N
  | None => false
  end = true <-> spec_dropped max_dist dist.
Proof.
  unfold spec_dropped. destruct max_dist as [d|]; split.
  - intros H. apply andb_true_iff in H as [H1 H2].
    apply N.ltb_lt in H1, H2. exists d. split; [reflexivity|]. split; [lia|exact H2].
  - intros (d' & [= <-] & H1 & H2). apply andb_true_iff.
    split; apply N.ltb_lt; lia.
  - discriminate.
  - intros (d' & H & _). discriminate.
Qed.

Lemma search_with_dist_loop_ok (lev : string -> string -> nat) (s : GeoNamesSearcher)
  (raw : string) (max_dist : option N) (stream : list (string * N)) :
  forall acc rs, search_with_dist_loop lev s raw max_dist stream acc = Ok rs ->
  exists per_key, Forall2 (expands_with_dist lev s raw max_dist) stream per_key /\
    rs = acc ++ concat per_key.
Proof.
  induction stream as [|[key gnd] stream IH]; simpl; intros acc rs H.
  - injection H as <-. exists []. split; [constructor|]. symmetry. apply app_nil_r.
  - match type of H with (if ?c then _ else _) = _ => destruct c eqn:Edrop end.
    + destruct (IH _ _ H) as (per_key & Hf & ->).
      exists ([] :: per_key). split; [|reflexivity].
      constructor; [|exact Hf]. left. split; [apply dropped_iff; exact Edrop|reflexivity].
    + unfold index, unwrap in H.
      destruct (nth_error (search_matches s) (N.to_nat gnd)) as [g|] eqn:Eg;
        simpl in H; [|discriminate].
      destruct (expand_group (geonames s)
                  (fun typ gn => GeoNamesSearchResultWithDist_new key typ gn (lev raw key)) g)
        as [rk| |] eqn:Er; simpl in H; try discriminate.
      destruct (IH _ _ H) as (per_key & Hf & ->).
      exists (rk :: per_key). split.
      * constructor; [|exact Hf]. right. split.
        -- simpl. rewrite <- dropped_iff, Edrop. discriminate.
        -- exists g. split; [exact Eg|]. apply expand_group_ok. exact Er.
      * simpl. rewrite <- app_assoc. reflexivity.
Qed.

Lemma search_with_dist_loop_zero (lev : string -> string -> nat) (s : GeoNamesSearcher)
  (raw : string) (stream : list (string * N)) :
  forall acc, search_with_dist_loop lev s raw None stream acc =
              search_with_dist_loop lev s raw (Some 0%N) stream acc.
Proof.
  induction stream as [|[key gnd] stream IH]; intros acc; simpl; [reflexivity|].
  destruct (index (search_matches s) (N.to_nat gnd)) as [g| |]; simpl; try reflexivity.
  destruct (expand_group _ _ g); simpl; auto.
Qed.

Lemma Forall2_concat_in {A B} (P : A -> list B -> Prop) (Q : B -> Prop) (l : list A) ll :
  Forall2 P l ll -> (forall a rk, P a rk -> forall b, In b rk -> Q b) ->
  forall b, In b (concat ll) -> Q b.
Proof.
  induction 1 as [|a rk l ll Hp Hf IH]; simpl; intros HQ b Hb; [contradiction|].
  apply in_app_or in Hb as [Hb|Hb]; eauto.
Qed.

(** C3: when [search_with_dist] returns, every accepted key contributes
    the expansion of its group, carrying the edit distance between the
    raw query and the key, unless a nonzero [max_dist] is given and that
    distance exceeds it; [None] and [Some 0] give the same result; the
    results are in the order distance ascending, then provenance rank,
    then record identifier. *)
Theorem search_with_dist_filter_sort (lev : string -> string -> nat) (s : GeoNamesSearcher)
  (a : Automaton) (raw : string) (max_dist : option N) (rs : list GeoNamesSearchResultWithDist) :
  search_with_dist lev s a raw max_dist = Ok rs ->
  (exists per_key, Forall2 (expands_with_dist lev s raw max_dist) (Map_search (map s) a) per_key /\
     Permutation rs (concat per_key)) /\
  (forall r, In r rs -> d_distance r = lev raw (mk_name (d_key r)) /\
                        ~ spec_dropped max_dist (d_distance r)) /\
  Sorted (fun r1 r2 =>
            let t1 := mk_typ (d_key r1) in let t2 := mk_typ (d_key r2) in
            d_distance r1 < d_distance r2 \/
            (d_distance r1 = d_distance r2 /\
             ((MatchType_ord t1 < MatchType_ord t2)%N \/
              (MatchType_ord t1 = MatchType_ord t2 /\ (MatchType_id t1 <= MatchType_id t2)%N)))) rs /\
  search_with_dist lev s a raw None = search_with_dist lev s a raw (Some 0%N).
Proof.
  intros H.
  assert (Hzero : search_with_dist lev s a raw None = search_with_dist lev s a raw (Some 0%N)).
  { unfold search_with_dist. rewrite search_with_dist_loop_zero. reflexivity. }
  unfold search_with_dist in H.
  destruct (search_with_dist_loop lev s raw max_dist (Map_search (map s) a) []) as [results| |] eqn:E;
    simpl in H; try discriminate.
  injection H as <-.
  destruct (search_with_dist_loop_ok _ _ _ _ _ _ _ E) as (per_key & Hf & ->).
  split; [|split; [|split; [|exact Hzero]]].
  - exists per_key. split; [exact Hf|]. apply sort_by_perm.
  - intros r Hr. eapply Permutation_in in Hr; [|apply sort_by_perm].
    simpl in Hr. revert r Hr. apply (Forall2_concat_in _ _ _ _ Hf).
    intros kv rk [[_ ->]|[Hnd (g & _ & Hg)]] r Hr; [contradiction|].
    induction Hg as [|typ r' g rk' (e & _ & ->) Hg IHg]; [contradiction|].
    destruct Hr as [<-|Hr]; [simpl; auto|auto].
  - eapply sorted_impl; [|apply (sort_by_sorted GeoNamesSearchResultWithDist_cmp);
                          exact GeoNamesSearchResultWithDist_cmp_antisym].
    intros x y Hxy. apply GeoNamesSearchResultWithDist_cmp_le in Hxy as [Hxy|[Hxy Hc]].
    + left. exact Hxy.
    + right. split; [exact Hxy|]. apply MatchType_cmp_le. exact Hc.
Qed.

Lemma search_with_dist_filter_sort_witness :
  exists rs, search_with_dist Concrete.lev Concrete.ex_searcher (Subsequence "Frnkfrt") "Frnkfrt"
               (Some 2%N) = Ok rs /\
  ((exists per_key, Forall2 (expands_with_dist Concrete.lev Concrete.ex_searcher "Frnkfrt" (Some 2%N))
                      (Map_search (map Concrete.ex_searcher) (Subsequence "Frnkfrt")) per_key /\
     Permutation rs (concat per_key)) /\
  (forall r, In r rs -> d_distance r = Concrete.lev "Frnkfrt" (mk_name (d_key r)) /\
                        ~ spec_dropped (Some 2%N) (d_distance r)) /\
  Sorted (fun r1 r2 =>
            let t1 := mk_typ (d_key r1) in let t2 := mk_typ (d_key r2) in
            d_distance r1 < d_distance r2 \/
            (d_distance r1 = d_distance r2 /\
             ((MatchType_ord t1 < MatchType_ord t2)%N \/
              (MatchType_ord t1 = MatchType_ord t2 /\ (MatchType_id t1 <= MatchType_id t2)%N)))) rs /\
  search_with_dist Concrete.lev Concrete.ex_searcher (Subsequence "Frnkfrt") "Frnkfrt" None =
  search_with_dist Concrete.lev Concrete.ex_searcher (Subsequence "Frnkfrt") "Frnkfrt" (Some 0%N)).
Proof.
  destruct (search_with_dist Concrete.lev Concrete.ex_searcher (Subsequence "Frnkfrt") "Frnkfrt"
              (Some 2%N)) as [rs| |] eqn:E.
  - exists rs. split; [reflexivity|]. apply search_with_dist_filter_sort. exact E.
  - vm_compute in E. discriminate.
  - vm_compute in E. discriminate.
Defined.

(* ------------------------------------------------------------------ *)
(** ** Distance filtering and [max_dist] *)

Lemma search_with_dist_loop_incl (lev : string -> string -> nat) (s : GeoNamesSearcher)
  (raw : string) (m m' : option N) :
  (forall dist, spec_dropped m' dist -> spec_dropped m dist) ->
  forall stream acc acc' rs rs',
  incl acc acc' ->
  search_with_dist_loop lev s raw m stream acc = Ok rs ->
  search_with_dist_loop lev s raw m' stream acc' = Ok rs' ->
  incl rs rs'.
Proof.
  intros Hmm stream. induction stream as [|[key gnd] stream IH]; simpl;
    intros acc acc' rs rs' Hacc H H'.
  { injection H as <-. injection H' as <-. exact Hacc. }
  destruct (match m with
            | Some distance => (0 <? distance)%N && (distance <? N.of_nat (lev raw key))%N
            | None => false end) eqn:E;
  destruct (match m' with
            | Some distance => (0 <? distance)%N && (distance <? N.of_nat (lev raw key))%N
            | None => false end) eqn:E'.
  - eapply IH; eassumption.
  - destruct (index (search_matches s) (N.to_nat gnd)) as [g| |]; simpl in H'; try discriminate.
    destruct (expand_group _ _ g) as [rk| |]; simpl in H'; try discriminate.
    eapply IH; [|exact H|exact H']. intros x Hx. apply in_or_app. auto.
  - exfalso. apply dropped_iff, Hmm, dropped_iff in E'. congruence.
  - destruct (index (search_matches s) (N.to_nat gnd)) as [g| |]; simpl in H, H'; try discriminate.
    destruct (expand_group _ _ g) as [rk| |]; simpl in H, H'; try discriminate.
    eapply IH; [|exact H|exact H']. intros x Hx.
    apply in_app_or in Hx as [Hx|Hx]; apply in_or_app; auto.
Qed.

Lemma search_with_dist_incl (lev : string -> string -> nat) (s : GeoNamesSearcher) (a : Automaton)
  (raw : string) (m m' : option N) rs rs' :
  (forall dist, spec_dropped m' dist -> spec_dropped m dist) ->
  search_with_dist lev s a raw m = Ok rs ->
  search_with_dist lev s a raw m' = Ok rs' ->
  incl rs rs'.
Proof.
  unfold search_with_dist. intros Hmm H H'.
  destruct (search_with_dist_loop lev s raw m _ []) as [l| |] eqn:E; simpl in H; try discriminate.
  destruct (search_with_dist_loop lev s raw m' _ []) as [l'| |] eqn:E'; simpl in H'; try discriminate.
  injection H as <-. injection H' as <-.
  intros x Hx.
  apply (Permutation_in _ (Permutation_sym (sort_by_perm _ l'))).
  apply (Permutation_in _ (sort_by_perm _ l)) in Hx.
  eapply (search_with_dist_loop_incl lev s raw m m' Hmm); [apply incl_refl|exact E|exact E'|exact Hx].
Qed.

(** C6 (as stated, refuted): growing [max_dist] from [0] to [1] does not
    keep the results of [0], because [0] disables filtering. On the
    spec's Frankfurt index, the subsequence query "Frnkfrt" finds
    "Frankfurt" (distance 2) with [max_dist = 0] but not with
    [max_dist = 1]. *)
Lemma max_dist_monotone_counterexample :
  ~ (forall (d d' : N) rs rs', (d < d')%N ->
       search_with_dist Concrete.lev Concrete.ex_searcher (Subsequence "Frnkfrt") "Frnkfrt"
         (Some d) = Ok rs ->
       search_with_dist Concrete.lev Concrete.ex_searcher (Subsequence "Frnkfrt") "Frnkfrt"
         (Some d') = Ok rs' ->
       incl rs rs').
Proof.
  intros H.
  destruct (search_with_dist Concrete.lev Concrete.ex_searcher (Subsequence "Frnkfrt") "Frnkfrt"
              (Some 0%N)) as [rs0| |] eqn:E0; [|vm_compute in E0; discriminate..].
  assert (E1 : search_with_dist Concrete.lev Concrete.ex_searcher (Subsequence "Frnkfrt") "Frnkfrt"
                 (Some 1%N) = Ok []) by (vm_compute; reflexivity).
  assert (Hne : rs0 <> []) by (vm_compute in E0; injection E0 as <-; discriminate).
  specialize (H 0%N 1%N rs0 [] ltac:(lia) E0 E1).
  destruct rs0 as [|r rs0]; [contradiction|].
  apply (H r). left. reflexivity.
Qed.

(** C6 (amended): for a fixed automaton and raw query, the results for
    a nonzero [max_dist = d] are among the results for any [d' >= d], and
    among the results for [max_dist = 0], which filters nothing. *)
Theorem search_with_dist_monotone (lev : string -> string -> nat) (s : GeoNamesSearcher)
  (a : Automaton) (raw : string) (d d' : N) rs rs' rs0 :
  (0 < d)%N -> (d <= d')%N ->
  search_with_dist lev s a raw (Some d) = Ok rs ->
  search_with_dist lev s a raw (Some d') = Ok rs' ->
  search_with_dist lev s a raw (Some 0%N) = Ok rs0 ->
  incl rs rs' /\ incl rs' rs0.
Proof.
  intros Hd Hdd H H' H0. split.
  - eapply search_with_dist_incl; [|exact H|exact H'].
    intros dist (x & [= <-] & Hx & Hlt). exists d. split; [reflexivity|]. split; lia.
  - eapply search_with_dist_incl; [|exact H'|exact H0].
    intros dist (x & [= <-] & Hx & _). lia.
Qed.

Lemma search_with_dist_monotone_witness :
  exists rs rs' rs0,
    (0 < 2)%N /\ (2 <= 10)%N /\
    search_with_dist Concrete.lev Concrete.ex_searcher (Subsequence "Frnkfrt") "Frnkfrt"
      (Some 2%N) = Ok rs /\
    search_with_dist Concrete.lev Concrete.ex_searcher (Subsequence "Frnkfrt") "Frnkfrt"
      (Some 10%N) = Ok rs' /\
    search_with_dist Concrete.lev Concrete.ex_searcher (Subsequence "Frnkfrt") "Frnkfrt"
      (Some 0%N) = Ok rs0 /\
    incl rs rs' /\ incl rs' rs0.
Proof.
  destruct (search_with_dist Concrete.lev Concrete.ex_searcher (Subsequence "Frnkfrt") "Frnkfrt"
              (Some 2%N)) as [rs| |] eqn:E; [|vm_compute in E; discriminate..].
  destruct (search_with_dist Concrete.lev Concrete.ex_searcher (Subsequence "Frnkfrt") "Frnkfrt"
              (Some 10%N)) as [rs'| |] eqn:E'; [|vm_compute in E'; discriminate..].
  destruct (search_with_dist Concrete.lev Concrete.ex_searcher (Subsequence "Frnkfrt") "Frnkfrt"
              (Some 0%N)) as [rs0| |] eqn:E0; [|vm_compute in E0; discriminate..].
  exists rs, rs', rs0.
  split; [lia|]. split; [lia|]. split; [reflexivity|]. split; [reflexivity|]. split; [reflexivity|].
  apply (search_with_dist_monotone Concrete.lev Concrete.ex_searcher (Subsequence "Frnkfrt")
           "Frnkfrt" 2 10 rs rs' rs0); [lia|lia|exact E|exact E'|exact E0].
Defined.

(* ------------------------------------------------------------------ *)
(** ** Ingestion of primary rows *)

Lemma Forall2_in_right {A B} (R : A -> B -> Prop) (l1 : list A) (l2 : list B) y :
  Forall2 R l1 l2 -> In y l2 -> exists x, In x l1 /\ R x y.
Proof.
  induction 1 as [|x' y' l1 l2 Hr _ IH]; simpl; [tauto|].
  intros [<-|Hy]; [exists x'; auto|].
  destruct (IH Hy) as (x & Hx & Hxy). exists x. auto.
Qed.

Lemma parse_geonames_row_ids `{Std} (record : list string) pushed (id : N) e :
  parse_geonames_row record = Ok (pushed, (id, e)) ->
  Forall (fun p => MatchType_id p.2 = id) pushed.
Proof.
  unfold parse_geonames_row. intros Hrow.
  destruct (nth_error record 0) as [id_s|]; cbn [res_bind ok_or] in Hrow; [|discriminate].
  destruct (parse_u64 id_s) as [id'| |]; cbn [res_bind] in Hrow; try discriminate.
  destruct (nth_error record 1) as [name|]; cbn [res_bind ok_or] in Hrow; [|discriminate].
  destruct (nth_error record 2) as [na|]; cbn [res_bind ok_or] in Hrow; [|discriminate].
  injection Hrow as <- <- _.
  apply Forall_app. split; [destruct (negb _)|]; repeat constructor.
Qed.

Definition insert_entries (gn : gmap N GeoNamesEntry)
  (parsed : list (list (string * MatchType) * (N * GeoNamesEntry))) : gmap N GeoNamesEntry :=
  fold_left (fun g p => <[p.2.1 := p.2.2]> g) parsed gn.

Lemma parse_geonames_rows_parsed `{Std} (rows : list (res (list string))) parsed :
  rows_parse rows parsed -> forall qp gn,
  parse_geonames_rows rows qp gn = Ok (qp ++ concat (List.map fst parsed), insert_entries gn parsed).
Proof.
  induction 1 as [|row p rows parsed (record & -> & Hp) _ IH]; intros qp gn; simpl.
  - rewrite app_nil_r. reflexivity.
  - rewrite Hp. destruct p as [pushed [id e]]. cbn [res_bind].
    rewrite IH. rewrite app_assoc. reflexivity.
Qed.

Lemma insert_entries_last (parsed1 parsed2 : list (list (string * MatchType) * (N * GeoNamesEntry)))
  pushed (id : N) e gn :
  ~ In id (List.map (fun p => p.2.1) parsed2) ->
  insert_entries gn (parsed1 ++ (pushed, (id, e)) :: parsed2) !! id = Some e.
Proof.
  intros Hnin. unfold insert_entries. rewrite fold_left_app. simpl.
  assert (Hg : forall g : gmap N GeoNamesEntry, g !! id = Some e ->
            fold_left (fun g p => <[p.2.1 := p.2.2]> g) parsed2 g !! id = Some e).
  { induction parsed2 as [|[pu [id' e']] parsed2 IH]; simpl in *; intros g Hg.
    - exact Hg.
    - apply IH; [tauto|]. rewrite lookup_insert_ne by (intros ->; tauto). exact Hg. }
  apply Hg. by simplify_map_eq.
Qed.

(** C9: ingesting primary rows that all parse never fails, even when
    several rows carry the same identifier. The pairs of every row are
    kept, in row order. The Entry Store holds, for an identifier, the
    entry of the LAST row with that identifier, and every pair that any
    row with that identifier emitted resolves to that entry. *)
Theorem duplicate_ids_last_row_wins `{Std} (rows : list (res (list string)))
  (parsed : list (list (string * MatchType) * (N * GeoNamesEntry)))
  (qp : list (string * MatchType)) (gn : gmap N GeoNamesEntry) :
  rows_parse rows parsed ->
  exists gn', parse_geonames_rows rows qp gn = Ok (qp ++ concat (List.map fst parsed), gn') /\
  forall parsed1 pushed id e parsed2,
    parsed = parsed1 ++ (pushed, (id, e)) :: parsed2 ->
    ~ In id (List.map (fun p => p.2.1) parsed2) ->
    gn' !! id = Some e /\
    forall p, In p parsed -> p.2.1 = id -> forall tm, In tm p.1 ->
      In tm (qp ++ concat (List.map fst parsed)) /\ gn' !! MatchType_id tm.2 = Some e.
Proof.
  intros Hrows. exists (insert_entries gn parsed).
  split; [apply parse_geonames_rows_parsed; exact Hrows|].
  intros parsed1 pushed id e parsed2 Heq Hnin.
  assert (Hlast : insert_entries gn parsed !! id = Some e)
    by (rewrite Heq; apply insert_entries_last; exact Hnin).
  split; [exact Hlast|].
  intros [pu [id' e']] Hp Hid tm Htm. simpl in Hid, Htm. subst id'.
  split.
  - apply in_or_app. right. apply in_concat. exists pu. split; [|exact Htm].
    apply in_map_iff. exists (pu, (id, e')). split; [reflexivity|exact Hp].
  - destruct (Forall2_in_right _ _ _ _ Hrows Hp) as (row & _ & record & _ & Hrec).
    apply parse_geonames_row_ids in Hrec.
    apply List.Forall_forall with (x := tm) in Hrec; [|exact Htm].
    rewrite Hrec. exact Hlast.
Qed.

Lemma duplicate_ids_last_row_wins_witness :
  exists parsed, @rows_parse Concrete.std_concrete Concrete.ex_dup_rows parsed /\
  exists gn', @parse_geonames_rows Concrete.std_concrete Concrete.ex_dup_rows [] ∅ =
                Ok (concat (List.map fst parsed), gn') /\
              option_map ge_name (gn' !! 1%N) = Some "Francfort" /\
              In ("Frankfurt", Name 1) (concat (List.map fst parsed)).
Proof.
  destruct (@parse_geonames_row Concrete.std_concrete
              ["1"; "Frankfurt"; "Frankfurt"; ""; "50.11"; "8.68"; "P"; "PPLA"; "DE";
               ""; "05"; ""; ""; ""; ""; "112"]) as [p1| |] eqn:E1;
    [|vm_compute in E1; discriminate..].
  destruct (@parse_geonames_row Concrete.std_concrete
              ["1"; "Francfort"; "Francfort"; ""; "50.11"; "8.68"; "P"; "PPLC"; "FR";
               ""; ""; ""; ""; ""; ""; ""]) as [p2| |] eqn:E2;
    [|vm_compute in E2; discriminate..].
  assert (Hrows : @rows_parse Concrete.std_concrete Concrete.ex_dup_rows [p1; p2])
    by (unfold rows_parse, Concrete.ex_dup_rows;
        constructor; [eexists; split; [reflexivity|exact E1]|];
        constructor; [eexists; split; [reflexivity|exact E2]|]; constructor).
  exists [p1; p2]. split; [exact Hrows|].
  destruct (@duplicate_ids_last_row_wins Concrete.std_concrete Concrete.ex_dup_rows [p1; p2] [] ∅ Hrows)
    as (gn' & Hparse & Hlast).
  exists gn'. split; [exact Hparse|].
  vm_compute in E1, E2. injection E1 as <-. injection E2 as <-.
  destruct (Hlast [_] _ _ _ [] eq_refl (fun H => H)) as [Hid _].
  rewrite Hid. split; [reflexivity|].
  simpl. auto.
Defined.

(* ------------------------------------------------------------------ *)
(** ** The empty-query check of the route handlers *)

(** C7: each of the five entry points (find, regex, starts-with, fuzzy,
    levenshtein), given the empty query, answers [400 Bad Request] with
    the message "Empty query", whatever the index and the other request
    fields: no traversal takes place, and no empty result list is
    returned. *)
Theorem empty_query_rejected `{RouteLibs} (searcher : GeoNamesSearcher)
  (filter : option FilterResults) (sw_d fz_d : N) (lev_d : option N) (limit : option nat) :
  let rejected : res (StatusCode * Response) := Ok (BAD_REQUEST, RespError "Empty query") in
  find_route searcher (mkRequestFind "" filter) = rejected /\
  regex_route searcher (mkRequestRegex "" filter) = rejected /\
  starts_with_route searcher (mkRequestStartsWith "" sw_d filter) = rejected /\
  fuzzy_route searcher (mkRequestFuzzy "" fz_d filter) = rejected /\
  levenshtein_route searcher (mkRequestLevenshtein "" lev_d limit filter) = rejected.
Proof.
  repeat split.
Qed.

(** C10: only the literally empty query is rejected. A non-empty query,
    for instance " ", passes the check of every entry point and is
    handed verbatim (untrimmed) to the lookup or to the automaton. *)
Theorem nonempty_query_searched_verbatim `{RouteLibs} (searcher : GeoNamesSearcher)
  (c : ascii) (rest : string)
  (filter : option FilterResults) (sw_d fz_d : N) (lev_d : option N) (limit : option nat) :
  let q := String c rest in
  find_route searcher (mkRequestFind q filter) =
    (let? rs := find searcher q in Ok (OK, Results (filter_results rs filter))) /\
  regex_route searcher (mkRequestRegex q filter) =
    match RegexSearchAutomaton_from_str q with
    | ROk query => let? rs := search searcher query in Ok (OK, Results (filter_results rs filter))
    | RErr e => Ok (BAD_REQUEST, RespError ("RegexError: " ++ e))
    end /\
  starts_with_route searcher (mkRequestStartsWith q sw_d filter) =
    (let? rs := search_with_dist levenshtein_dist searcher (starts_with_aut (Str q)) q (Some sw_d) in
     Ok (OK, ResultsWithDist (filter_results rs filter))) /\
  fuzzy_route searcher (mkRequestFuzzy q fz_d filter) =
    (let? rs := search_with_dist levenshtein_dist searcher (Subsequence q) q (Some fz_d) in
     Ok (OK, ResultsWithDist (filter_results rs filter))) /\
  levenshtein_route searcher (mkRequestLevenshtein q lev_d limit filter) =
    (let? r := levenshtein_inner searcher q limit lev_d filter in
     match r with
     | ROk results => Ok (OK, ResultsWithDist results)
     | RErr error =>
         Ok (NOT_ACCEPTABLE, RespError ("LevenshteinError: " ++ LevenshteinError_debug error))
     end).
Proof.
  repeat split.
Qed.

(* ------------------------------------------------------------------ *)
(** ** Safety of built indexes *)

Lemma fold_res_inv {A B} (I : B -> Prop) (f : A -> B -> res B) (l : list A) :
  (forall a x y, I x -> f a x = Ok y -> I y) ->
  forall b b', I b -> fold_res f l b = Ok b' -> I b'.
Proof.
  intros Hf. induction l as [|a l IH]; simpl; intros b b' Hb H.
  - injection H as <-. exact Hb.
  - destruct (f a b) as [y| |] eqn:E; simpl in H; try discriminate.
    eapply IH; [|exact H]. eapply Hf; eassumption.
Qed.

Lemma pairs_resolve_insert (gn : gmap N GeoNamesEntry) qp (id : N) e :
  pairs_resolve gn qp -> pairs_resolve (<[id := e]> gn) qp.
Proof.
  unfold pairs_resolve. apply List.Forall_impl. intros p Hp. apply lookup_insert_is_Some'. right. exact Hp.
Qed.

Lemma parse_geonames_rows_resolve `{Std} (rows : list (res (list string))) :
  forall qp gn qp' gn',
  pairs_resolve gn qp -> parse_geonames_rows rows qp gn = Ok (qp', gn') ->
  pairs_resolve gn' qp'.
Proof.
  induction rows as [|row rows IH]; simpl; intros qp gn qp' gn' Hqp Hr.
  - injection Hr as <- <-. exact Hqp.
  - destruct row as [record| |]; cbn [res_bind] in Hr; try discriminate.
    destruct (parse_geonames_row record) as [[pushed [id e]]| |] eqn:Er;
      cbn [res_bind] in Hr; try discriminate.
    eapply IH; [|exact Hr].
    apply Forall_app. split; [apply pairs_resolve_insert; exact Hqp|].
    apply parse_geonames_row_ids in Er. revert Er. apply List.Forall_impl.
    intros p ->. apply lookup_insert_is_Some'. left. reflexivity.
Qed.

Lemma alternate_match_type_id (id : N) lang from to p s c h :
  MatchType_id (alternate_match_type id lang from to p s c h) = id.
Proof. destruct p, s, c, h; reflexivity. Qed.

Lemma parse_alternate_row_resolve include_languages (gn : gmap N GeoNamesEntry)
  (record : list string) p :
  parse_alternate_row include_languages gn record = Ok (Some p) ->
  is_Some (gn !! MatchType_id p.2).
Proof.
  unfold parse_alternate_row. intros Hrow.
  destruct (nth_error record 2) as [lang|]; cbn [res_bind ok_or] in Hrow; [|discriminate].
  destruct (match include_languages with
            | Some set => negb (existsb (String.eqb lang) set)
            | None => false end); [discriminate|].
  destruct (nth_error record 1) as [id_s|]; cbn [res_bind ok_or] in Hrow; [|discriminate].
  destruct (parse_u64 id_s) as [id| |]; cbn [res_bind] in Hrow; try discriminate.
  destruct (bool_decide (is_Some (gn !! id))) eqn:Eb; cbn [negb] in Hrow; [|discriminate].
  apply bool_decide_eq_true in Eb.
  destruct (nth_error record 3); cbn [res_bind ok_or] in Hrow; [|discriminate].
  destruct (nth_error record 4); cbn [res_bind ok_or] in Hrow; [|discriminate].
  destruct (nth_error record 5); cbn [res_bind ok_or] in Hrow; [|discriminate].
  destruct (nth_error record 6); cbn [res_bind ok_or] in Hrow; [|discriminate].
  destruct (nth_error record 7); cbn [res_bind ok_or] in Hrow; [|discriminate].
  injection Hrow as <-. simpl. rewrite alternate_match_type_id. exact Eb.
Qed.

Lemma parse_alternate_rows_resolve (rows : list (res (list string))) gn langs :
  forall qp qp', pairs_resolve gn qp -> parse_alternate_rows rows qp gn langs = Ok qp' ->
  pairs_resolve gn qp'.
Proof.
  induction rows as [|row rows IH]; simpl; intros qp qp' Hqp Hr.
  - injection Hr as <-. exact Hqp.
  - destruct row as [record| |]; cbn [res_bind] in Hr; try discriminate.
    destruct (parse_alternate_row langs gn record) as [[p|]| |] eqn:Er;
      cbn [res_bind] in Hr; try discriminate.
    + eapply IH; [|exact Hr]. apply Forall_app. split; [exact Hqp|].
      constructor; [|constructor]. eapply parse_alternate_row_resolve. exact Er.
    + eapply IH; eassumption.
Qed.

Lemma build_resolve `{Std} gn_paths gn_alternate_paths gn_alternate_languages s :
  build gn_paths gn_alternate_paths gn_alternate_languages = Ok s ->
  exists qp gn, build_index qp gn = Ok s /\ pairs_resolve gn qp.
Proof.
  unfold build. intros Hb.
  destruct (fold_res _ gn_paths ([], ∅)) as [[qp gn]| |] eqn:E1; cbn [res_bind] in Hb; try discriminate.
  assert (Hqp : pairs_resolve gn qp).
  { refine (fold_res_inv (fun st => pairs_resolve st.2 st.1) _ _ _ ([], ∅) (qp, gn) _ E1).
    - intros file [qp0 gn0] [qp1 gn1] Hi Hf. unfold parse_geonames_file in Hf.
      destruct file as [rows| |]; cbn [res_bind] in Hf; try discriminate.
      eapply parse_geonames_rows_resolve; eassumption.
    - constructor. }
  destruct gn_alternate_paths as [paths|]; cbn [res_bind] in Hb.
  - destruct (fold_res _ paths qp) as [qp'| |] eqn:E2; cbn [res_bind] in Hb; try discriminate.
    exists qp', gn. split; [exact Hb|].
    refine (fold_res_inv (pairs_resolve gn) _ _ _ qp qp' Hqp E2).
    intros file x y Hx Hf. unfold parse_alternate_names_file in Hf.
    destruct file as [rows| |]; cbn [res_bind] in Hf; try discriminate.
    eapply parse_alternate_rows_resolve; eassumption.
  - exists qp, gn. split; [exact Hb|exact Hqp].
Qed.

Lemma numbered_In (terms : list string) :
  forall i t v, In (t, v) (numbered i terms) ->
  exists j, nth_error terms j = Some t /\ v = N.of_nat (i + j).
Proof.
  induction terms as [|t0 terms IH]; simpl; intros i t v Hin; [contradiction|].
  destruct Hin as [[= <- <-]|Hin].
  - exists 0. split; [reflexivity|]. f_equal. lia.
  - destruct (IH _ _ _ Hin) as (j & Hj & ->). exists (S j). split; [exact Hj|]. f_equal. lia.
Qed.

Lemma build_index_safe (query_pairs : list (string * MatchType)) (gn : gmap N GeoNamesEntry)
  (s : GeoNamesSearcher) :
  build_index query_pairs gn = Ok s -> pairs_resolve gn query_pairs -> index_safe s.
Proof.
  intros Hb Hres.
  set (cmp := fun a b : string * MatchType => String.compare a.1 b.1).
  assert (Hsorted : Sorted (fun a b => str_le a.1 b.1) (sort_pairs query_pairs)).
  { apply (sort_by_sorted cmp). intros x y. apply String.compare_antisym. }
  assert (Hperm : Permutation (sort_pairs query_pairs) query_pairs) by apply sort_by_perm.
  assert (Hss : StronglySorted (fun a b => str_le a.1 b.1) ([] ++ sort_pairs query_pairs)).
  { apply Sorted_StronglySorted; [|exact Hsorted]. intros x y z. apply str_le_trans. }
  destruct (prepare_terms_correct _ [] "" [] [] prep_inv_nil Hss)
    as (terms & groups & Hprep & last' & Hlen & Hsort & _ & Hin & Hgrp).
  assert (Hfst : build_fst_from 0 terms [] = Ok (numbered 0 terms))
    by (apply build_fst_from_ok; auto).
  unfold build_index in Hb. rewrite Hprep in Hb. cbn [res_bind] in Hb. rewrite Hfst in Hb.
  injection Hb as <-. split; simpl.
  - intros t v Htv. apply numbered_In in Htv as (j & Hj & ->).
    rewrite Nat2N.id. rewrite Hlen. apply nth_error_Some. simpl. rewrite Hj. discriminate.
  - intros g Hg. apply In_nth_error in Hg as [i Hi].
    assert (Hit : i < length terms) by (rewrite <- Hlen; apply nth_error_Some; congruence).
    apply nth_error_Some in Hit. destruct (nth_error terms i) as [t|] eqn:Ht; [|contradiction].
    rewrite (Hgrp i t Ht) in Hi. injection Hi as <-. split.
    + apply nth_error_In, Hin in Ht as [_ Ht]. simpl in Ht.
      apply in_map_iff in Ht as [[k m] [Hk Hkm]]. simpl in Hk. subst k.
      intros Hnil. apply map_eq_nil in Hnil.
      assert (Hf : In (t, m) (List.filter (fun p => String.eqb p.1 t) (sort_pairs query_pairs)))
        by (apply filter_In; split; [exact Hkm|apply String.eqb_refl]).
      simpl in Hnil. rewrite Hnil in Hf. contradiction.
    + intros m Hm. apply in_map_iff in Hm as [[k m'] [Hm Hkm]]. simpl in Hm. subst m'.
      simpl in Hkm. apply filter_In in Hkm as [Hkm _].
      apply (Permutation_in _ Hperm) in Hkm.
      unfold pairs_resolve in Hres. rewrite List.Forall_forall in Hres.
      exact (Hres _ Hkm).
Qed.

Lemma assoc_get_In (l : list (string * N)) (k : string) (v : N) :
  assoc_get l k = Some v -> In (k, v) l.
Proof.
  induction l as [|[k' v'] l IH]; simpl; [discriminate|].
  destruct (String.eqb_spec k' k) as [->|_]; [intros [= ->]; left; reflexivity|].
  intros H. right. exact (IH H).
Qed.

Lemma expand_group_total {B} (gn : gmap N GeoNamesEntry) (f : MatchType -> GeoNamesEntry -> B)
  (g : list MatchType) :
  (forall m, In m g -> is_Some (gn !! MatchType_id m)) -> exists rs, expand_group gn f g = Ok rs.
Proof.
  induction g as [|typ g IH]; simpl; intros Hg; [eexists; reflexivity|].
  destruct (Hg typ (or_introl eq_refl)) as [e He]. rewrite He. cbn [unwrap res_bind].
  destruct IH as [rest Hrest]; [intros m Hm; apply Hg; right; exact Hm|].
  rewrite Hrest. eexists. reflexivity.
Qed.

Lemma index_safe_group (s : GeoNamesSearcher) (kv : string * N) :
  index_safe s -> In kv (fst_entries (map s)) ->
  exists g, index (search_matches s) (N.to_nat kv.2) = Ok g /\
    forall m, In m g -> is_Some (geonames s !! MatchType_id m).
Proof.
  destruct kv as [t v]. intros [Hv Hg] Hin. simpl.
  apply Hv, nth_error_Some in Hin.
  destruct (nth_error (search_matches s) (N.to_nat v)) as [g|] eqn:E; [|contradiction].
  exists g. unfold index. rewrite E. split; [reflexivity|].
  apply Hg. eapply nth_error_In. exact E.
Qed.

Lemma search_loop_total (s : GeoNamesSearcher) (stream : list (string * N)) :
  index_safe s -> (forall kv, In kv stream -> In kv (fst_entries (map s))) ->
  forall acc, exists rs, search_loop s stream acc = Ok rs.
Proof.
  intros Hs. induction stream as [|[key gnd] stream IH]; simpl; intros Hst acc;
    [eexists; reflexivity|].
  destruct (index_safe_group s (key, gnd) Hs (Hst _ (or_introl eq_refl))) as (g & Hi & Hm).
  simpl in Hi. rewrite Hi. cbn [res_bind].
  destruct (expand_group_total (geonames s) (GeoNamesSearchResult_new key) g Hm) as [rk Hrk].
  rewrite Hrk. cbn [res_bind]. apply IH. intros kv Hkv. apply Hst. right. exact Hkv.
Qed.

Lemma search_with_dist_loop_total (lev : string -> string -> nat) (s : GeoNamesSearcher)
  (raw : string) (max_dist : option N) (stream : list (string * N)) :
  index_safe s -> (forall kv, In kv stream -> In kv (fst_entries (map s))) ->
  forall acc, exists rs, search_with_dist_loop lev s raw max_dist stream acc = Ok rs.
Proof.
  intros Hs. induction stream as [|[key gnd] stream IH]; simpl; intros Hst acc;
    [eexists; reflexivity|].
  assert (Hst' : forall kv, In kv stream -> In kv (fst_entries (map s)))
    by (intros kv Hkv; apply Hst; right; exact Hkv).
  destruct (match max_dist with
            | Some distance => (0 <? distance)%N && (distance <? N.of_nat (lev raw key))%N
            | None => false end); [apply IH; exact Hst'|].
  destruct (index_safe_group s (key, gnd) Hs (Hst _ (or_introl eq_refl))) as (g & Hi & Hm).
  simpl in Hi. rewrite Hi. cbn [res_bind].
  destruct (expand_group_total (geonames s)
              (fun typ gn => GeoNamesSearchResultWithDist_new key typ gn (lev raw key)) g Hm)
    as [rk Hrk].
  rewrite Hrk. cbn [res_bind]. apply IH. exact Hst'.
Qed.

(** C8: for every index that [GeoNamesSearcher::build] produces, every
    ordinal stored in the FST indexes [search_matches], every group is
    non-empty, and every provenance of every group carries an identifier
    of the Entry Store; so [find], [search] and [search_with_dist] always
    return normally (no slice index or [unwrap] panics), whatever the
    query. *)
Theorem built_index_never_panics `{Std} (gn_paths : list CsvFile)
  (gn_alternate_paths : option (list CsvFile)) (gn_alternate_languages : option (list string))
  (s : GeoNamesSearcher) :
  build gn_paths gn_alternate_paths gn_alternate_languages = Ok s ->
  (forall t v, In (t, v) (fst_entries (map s)) -> N.to_nat v < length (search_matches s)) /\
  (forall g, In g (search_matches s) -> g <> []) /\
  (forall g m, In g (search_matches s) -> In m g -> is_Some (geonames s !! MatchType_id m)) /\
  (forall query, exists rs, find s query = Ok rs) /\
  (forall query, exists rs, search s query = Ok rs) /\
  (forall levenshtein_dist query raw max_dist,
     exists rs, search_with_dist levenshtein_dist s query raw max_dist = Ok rs).
Proof.
  intros Hb. destruct (build_resolve _ _ _ _ Hb) as (qp & gn & Hbi & Hres).
  pose proof (build_index_safe qp gn s Hbi Hres) as Hs.
  assert (Hstream : forall a kv, In kv (Map_search (map s) a) -> In kv (fst_entries (map s)))
    by (intros a kv Hkv; apply filter_In in Hkv; tauto).
  destruct Hs as [Hv Hg] eqn:Es.
  split; [exact Hv|]. split; [intros g Hin; apply (Hg g Hin)|].
  split; [intros g m Hin; apply (Hg g Hin)|].
  split; [|split].
  - intros query. unfold find.
    destruct (Map_get (map s) query) as [gnd|] eqn:E; [|eexists; reflexivity].
    apply assoc_get_In in E.
    destruct (index_safe_group s (query, gnd) Hs E) as (g & Hi & Hm). simpl in Hi.
    rewrite Hi. cbn [res_bind]. apply expand_group_total. exact Hm.
  - intros query. unfold search.
    destruct (search_loop_total s (Map_search (map s) query) Hs (Hstream query) []) as [rs Hrs].
    rewrite Hrs. eexists. reflexivity.
  - intros lev query raw max_dist. unfold search_with_dist.
    destruct (search_with_dist_loop_total lev s raw max_dist (Map_search (map s) query) Hs
                (Hstream query) []) as [rs Hrs].
    rewrite Hrs. eexists. reflexivity.
Qed.

Lemma built_index_never_panics_witness :
  @build Concrete.std_concrete [Concrete.ex_primary] (Some [Concrete.ex_alternate]) None =
    Ok Concrete.ex_searcher /\
  exists rs, find Concrete.ex_searcher "Frankfurt am Main" = Ok rs.
Proof.
  assert (Hb : @build Concrete.std_concrete [Concrete.ex_primary] (Some [Concrete.ex_alternate]) None =
               Ok Concrete.ex_searcher) by (vm_compute; reflexivity).
  split; [exact Hb|].
  destruct (@built_index_never_panics Concrete.std_concrete _ _ _ _ Hb) as (_ & _ & _ & Hfind & _).
  apply Hfind.
Defined.

(* ------------------------------------------------------------------ *)
(** ** Bounded edit-distance search: the part in [routes/levenshtein.rs] *)

(** [levenshtein_inner] builds its automaton with distance [1] when none
    is given, with [Levenshtein::new] when no state limit is given and
    with [Levenshtein::new_with_limit] otherwise; a construction error
    reaches the caller as [406 Not Acceptable] with the error's [Debug]
    text, never as a result list. *)
Lemma levenshtein_route_construction `{RouteLibs} (searcher : GeoNamesSearcher)
  (c : ascii) (rest : string) (max_dist : option N) (state_limit : option nat)
  (filter : option FilterResults) :
  let q := String c rest in
  let distance := match max_dist with Some d => d | None => 1%N end in
  let constructed := match state_limit with
                     | Some l => Levenshtein_new_with_limit q distance l
                     | None => Levenshtein_new q distance
                     end in
  (forall error, constructed = RErr error ->
     levenshtein_route searcher (mkRequestLevenshtein q max_dist state_limit filter) =
       Ok (NOT_ACCEPTABLE, RespError ("LevenshteinError: " ++ LevenshteinError_debug error))) /\
  (forall aut, constructed = ROk aut ->
     levenshtein_route searcher (mkRequestLevenshtein q max_dist state_limit filter) =
       (let? rs := search_with_dist levenshtein_dist searcher aut q max_dist in
        Ok (OK, ResultsWithDist (filter_results rs filter)))).
Proof.
  cbv zeta. split.
  - intros error He. unfold levenshtein_route, levenshtein_inner. cbn [lev_query String.eqb].
    cbn [lev_state_limit lev_max_dist lev_filter].
    destruct state_limit; rewrite He; reflexivity.
  - intros aut Ha. unfold levenshtein_route, levenshtein_inner. cbn [lev_query String.eqb].
    cbn [lev_state_limit lev_max_dist lev_filter].
    destruct state_limit; rewrite Ha; cbn [res_bind];
      destruct (search_with_dist _ _ _ _ _); reflexivity.
Qed.

(* ------------------------------------------------------------------ *)
(** ** [filter_results] *)

Lemma filter_filter {A} (p q : A -> bool) (l : list A) :
  List.filter q (List.filter p l) = List.filter (fun x => p x && q x) l.
Proof.
  induction l as [|x l IH]; simpl; [reflexivity|].
  destruct (p x); simpl; [destruct (q x); simpl|]; rewrite IH; reflexivity.
Qed.

Lemma filter_ext_fun {A} (p q : A -> bool) (l : list A) :
  (forall x, p x = q x) -> List.filter p l = List.filter q l.
Proof.
  intros H. induction l as [|x l IH]; simpl; [reflexivity|]. rewrite H, IH. reflexivity.
Qed.

Lemma retain_field {T} (g : T -> string) (o : option string) (l : list T) :
  match o with Some w => List.filter (fun r => String.eqb (g r) w) l | None => l end =
  List.filter (fun r => field_ok o (g r)) l.
Proof.
  destruct o as [w|]; simpl; [reflexivity|].
  induction l as [|x l IH]; simpl; [reflexivity|]. rewrite <- IH. reflexivity.
Qed.

Lemma filter_results_as_filter {T} `{Entry T} (results : list T) (filter : option FilterResults) :
  filter_results results filter = List.filter (fun r => filter_matches filter (entry r)) results.
Proof.
  destruct filter as [[fcl fco cc]|]; simpl.
  - rewrite (retain_field (fun r => ge_feature_class (entry r))).
    rewrite (retain_field (fun r => ge_feature_code (entry r))).
    rewrite (retain_field (fun r => ge_country_code (entry r))).
    rewrite !filter_filter. apply filter_ext_fun. intros r. apply andb_assoc.
  - induction results as [|r rs IH]; simpl; [reflexivity|]. rewrite <- IH. reflexivity.
Qed.

(** The three successive [retain] calls of [filter_results] keep exactly
    the results whose entry passes every field the filter sets, in their
    original order. *)
Theorem filter_results_spec {T} `{Entry T} (results : list T) (filter : option FilterResults) :
  filter_results results filter = List.filter (fun r => filter_matches filter (entry r)) results.
Proof.
  exact (filter_results_as_filter results filter).
Qed.

(* ------------------------------------------------------------------ *)
(** ** The [Ord] impls of [data.rs] as orders *)

Lemma MatchType_cmp_Eq (a b : MatchType) :
  MatchType_cmp a b = Eq <-> MatchType_ord a = MatchType_ord b /\ MatchType_id a = MatchType_id b.
Proof.
  unfold MatchType_cmp, then_cmp.
  destruct (N.compare_spec (MatchType_ord a) (MatchType_ord b)) as [H|H|H].
  - rewrite N.compare_eq_iff. tauto.
  - split; [discriminate|]. intros [He _]. lia.
  - split; [discriminate|]. intros [He _]. lia.
Qed.

Lemma MatchType_cmp_le_trans (a b c : MatchType) :
  MatchType_cmp a b <> Gt -> MatchType_cmp b c <> Gt -> MatchType_cmp a c <> Gt.
Proof.
  rewrite !MatchType_cmp_le. lia.
Qed.

(** [Ord for MatchType] (and so [Ord for MatchKey] and
    [Ord for GeoNamesSearchResult]) and [Ord for
    GeoNamesSearchResultWithDist] are total preorders: [cmp a b] is the
    reverse of [cmp b a], and "not greater" is transitive. Two provenances
    compare [Equal] exactly when they have the same rank and record
    identifier, whatever their languages, dates or matched names, so the
    order is coarser than the derived [Eq]. *)
Theorem data_ord_total_preorder :
  (forall a b, MatchType_cmp a b = CompOpp (MatchType_cmp b a)) /\
  (forall a b c, MatchType_cmp a b <> Gt -> MatchType_cmp b c <> Gt -> MatchType_cmp a c <> Gt) /\
  (forall a b, MatchType_cmp a b = Eq <->
     MatchType_ord a = MatchType_ord b /\ MatchType_id a = MatchType_id b) /\
  (forall a b : GeoNamesSearchResult,
     GeoNamesSearchResult_cmp a b = MatchType_cmp (mk_typ (r_key a)) (mk_typ (r_key b))) /\
  (forall a b, GeoNamesSearchResultWithDist_cmp a b = CompOpp (GeoNamesSearchResultWithDist_cmp b a)) /\
  (forall a b c, GeoNamesSearchResultWithDist_cmp a b <> Gt ->
     GeoNamesSearchResultWithDist_cmp b c <> Gt -> GeoNamesSearchResultWithDist_cmp a c <> Gt) /\
  (forall a b, GeoNamesSearchResultWithDist_cmp a b = Eq <->
     d_distance a = d_distance b /\
     MatchType_ord (mk_typ (d_key a)) = MatchType_ord (mk_typ (d_key b)) /\
     MatchType_id (mk_typ (d_key a)) = MatchType_id (mk_typ (d_key b))).
Proof.
  split; [apply MatchType_cmp_antisym|].
  split; [apply MatchType_cmp_le_trans|].
  split; [apply MatchType_cmp_Eq|].
  split; [reflexivity|].
  split; [apply GeoNamesSearchResultWithDist_cmp_antisym|].
  split.
  - intros a b c. rewrite !GeoNamesSearchResultWithDist_cmp_le.
    intros [Hab|[Hab Hab']] [Hbc|[Hbc Hbc']]; try (left; lia).
    right. split; [lia|]. eapply MatchType_cmp_le_trans; eassumption.
  - intros a b. unfold GeoNamesSearchResultWithDist_cmp, then_cmp, MatchKey_cmp.
    destruct (Nat.compare_spec (d_distance a) (d_distance b)) as [H|H|H].
    + rewrite MatchType_cmp_Eq. tauto.
    + split; [discriminate|]. intros [He _]. lia.
    + split; [discriminate|]. intros [He _]. lia.
Qed.

(* ------------------------------------------------------------------ *)
(** ** Ties in [search] and exact lookup after [build] *)



(** What [build_index] produces: the FST numbers the unique terms, which
    are the non-empty terms of the pairs, and group [i] holds the
    provenances of term [i] in input order. *)
Lemma build_index_facts (query_pairs : list (string * MatchType)) (gn : gmap N GeoNamesEntry)
  (s : GeoNamesSearcher) :
  build_index query_pairs gn = Ok s ->
  exists terms,
    fst_entries (map s) = numbered 0 terms /\
    StronglySorted str_lt terms /\
    geonames s = gn /\
    length (search_matches s) = length terms /\
    (forall t, In t terms <-> t <> "" /\ In t (List.map fst query_pairs)) /\
    (forall i t, nth_error terms i = Some t ->
       nth_error (search_matches s) i =
         Some (List.map snd (List.filter (fun p => String.eqb p.1 t) query_pairs))).
Proof.
  intros Hb.
  set (cmp := fun a b : string * MatchType => String.compare a.1 b.1).
  assert (Hsorted : Sorted (fun a b => str_le a.1 b.1) (sort_pairs query_pairs)).
  { apply (sort_by_sorted cmp). intros x y. apply String.compare_antisym. }
  assert (Hperm : Permutation (sort_pairs query_pairs) query_pairs) by apply sort_by_perm.
  assert (Hstable : forall t, List.filter (fun p => String.eqb p.1 t) (sort_pairs query_pairs) =
                              List.filter (fun p => String.eqb p.1 t) query_pairs).
  { intros t. apply sort_by_filter. intros x y Hx Hy.
    apply String.eqb_eq in Hx, Hy. unfold cmp. rewrite Hx, Hy. apply str_compare_refl. }
  assert (Hss : StronglySorted (fun a b => str_le a.1 b.1) ([] ++ sort_pairs query_pairs)).
  { apply Sorted_StronglySorted; [|exact Hsorted]. intros x y z. apply str_le_trans. }
  destruct (prepare_terms_correct _ [] "" [] [] prep_inv_nil Hss)
    as (terms & groups & Hprep & last' & Hlen & Hsort & _ & Hin & Hgrp).
  assert (Hfst : build_fst_from 0 terms [] = Ok (numbered 0 terms))
    by (apply build_fst_from_ok; auto).
  unfold build_index in Hb. rewrite Hprep in Hb. cbn [res_bind] in Hb. rewrite Hfst in Hb.
  injection Hb as <-. exists terms. simpl.
  split; [reflexivity|]. split; [exact Hsort|]. split; [reflexivity|]. split; [exact Hlen|].
  split.
  - intros t. rewrite Hin. simpl. split; intros [Hne Hx]; split; auto.
    + apply in_map_iff in Hx as [p [Hp Hx]]. apply in_map_iff. exists p. split; [exact Hp|].
      eapply Permutation_in; [exact Hperm|exact Hx].
    + apply in_map_iff in Hx as [p [Hp Hx]]. apply in_map_iff. exists p. split; [exact Hp|].
      eapply Permutation_in; [symmetry; exact Hperm|exact Hx].
  - intros i t Hi. rewrite (Hgrp i t Hi). simpl. rewrite Hstable. reflexivity.
Qed.

Lemma find_build_index (query_pairs : list (string * MatchType)) (gn : gmap N GeoNamesEntry)
  (s : GeoNamesSearcher) (t : string) :
  build_index query_pairs gn = Ok s ->
  find s t =
    if String.eqb t "" then Ok []
    else expand_group gn (GeoNamesSearchResult_new t)
           (List.map snd (List.filter (fun p => String.eqb p.1 t) query_pairs)).
Proof.
  intros Hb.
  destruct (build_index_facts _ _ _ Hb) as (terms & Hent & Hsort & Hgn & Hlen & Hin & Hgrp).
  unfold find, Map_get. rewrite Hent, Hgn.
  destruct (assoc_get (numbered 0 terms) t) as [v|] eqn:E.
  - apply assoc_get_numbered in E as (j & Hj & ->); [|apply ss_lt_NoDup; exact Hsort].
    pose proof (nth_error_In _ _ Hj) as Ht. apply Hin in Ht as [Hne _].
    destruct (String.eqb_spec t "") as [->|_]; [contradiction|].
    simpl. rewrite Nat2N.id. unfold index. rewrite (Hgrp j t Hj). reflexivity.
  - destruct (String.eqb_spec t "") as [->|Hne]; [reflexivity|].
    assert (Hnin : ~ In t (List.map fst query_pairs)).
    { intros Hx. assert (Ht : In t terms) by (apply Hin; auto).
      apply In_nth_error in Ht as [j Hj].
      assert (Hg : assoc_get (numbered 0 terms) t = Some (N.of_nat (0 + j)))
        by (apply assoc_get_numbered; [apply ss_lt_NoDup; exact Hsort|eauto]).
      congruence. }
    rewrite filter_key_absent by exact Hnin. reflexivity.
Qed.

(** Exact lookup after [build_index]: [find] of the empty string finds
    nothing; [find] of any other term expands, unsorted, the provenances
    of the pairs with exactly that term, in the order the pairs were
    ingested (the stable sort keeps it); a term no pair carries finds
    nothing. *)
Theorem find_after_build_index (query_pairs : list (string * MatchType))
  (gn : gmap N GeoNamesEntry) (s : GeoNamesSearcher) (t : string) :
  build_index query_pairs gn = Ok s ->
  find s t =
    if String.eqb t "" then Ok []
    else expand_group gn (GeoNamesSearchResult_new t)
           (List.map snd (List.filter (fun p => String.eqb p.1 t) query_pairs)).
Proof.
  exact (find_build_index query_pairs gn s t).
Qed.

Lemma find_after_build_index_witness :
  let qp := [("Frankfurt", Name 1); ("Francfort", PreferredName 1 "fr");
             ("Frankfurt", Alternate 1 "de")] in
  let gn : gmap N GeoNamesEntry :=
    {[ 1%N := mkGeoNamesEntry 1 "Frankfurt" f32_NAN f32_NAN "P" "PPLA" "DE" "" "" "" "" None ]} in
  exists s, build_index qp gn = Ok s /\
    find s "Frankfurt" =
      expand_group gn (GeoNamesSearchResult_new "Frankfurt") [Name 1; Alternate 1 "de"].
Proof.
  intros qp gn.
  destruct (build_index qp gn) as [s| |] eqn:E; [|vm_compute in E; discriminate..].
  exists s. split; [reflexivity|].
  rewrite (find_after_build_index qp gn s "Frankfurt" E). reflexivity.
Defined.

Lemma Forall2_in_left {A B} (R : A -> B -> Prop) (l1 : list A) (l2 : list B) x :
  Forall2 R l1 l2 -> In x l1 -> exists y, In y l2 /\ R x y.
Proof.
  induction 1 as [|x' y' l1 l2 Hr _ IH]; simpl; [tauto|].
  intros [<-|Hx]; [exists y'; auto|].
  destruct (IH Hx) as (y & Hy & Hxy). exists y. auto.
Qed.

Lemma parse_geonames_rows_inv `{Std} (rows : list (res (list string))) :
  forall qp gn qp' gn', parse_geonames_rows rows qp gn = Ok (qp', gn') ->
  exists parsed, rows_parse rows parsed /\ qp' = qp ++ concat (List.map fst parsed).
Proof.
  induction rows as [|row rows IH]; simpl; intros qp gn qp' gn' Hr.
  - injection Hr as <- <-. exists []. split; [constructor|]. symmetry. apply app_nil_r.
  - destruct row as [record| |]; cbn [res_bind] in Hr; try discriminate.
    destruct (parse_geonames_row record) as [[pushed [id e]]| |] eqn:Er;
      cbn [res_bind] in Hr; try discriminate.
    destruct (IH _ _ _ _ Hr) as (parsed & Hp & ->).
    exists ((pushed, (id, e)) :: parsed). split.
    + constructor; [|exact Hp]. exists record. auto.
    + simpl. rewrite app_assoc. reflexivity.
Qed.

Lemma fold_primary_files `{Std} (files : list CsvFile) :
  forall qp gn qp' gn',
  fold_res (fun path st => parse_geonames_file path st.1 st.2) files (qp, gn) = Ok (qp', gn') ->
  incl qp qp' /\
  forall file, In file files -> exists rows parsed,
    file = Ok rows /\ rows_parse rows parsed /\ incl (concat (List.map fst parsed)) qp'.
Proof.
  induction files as [|file files IH]; simpl; intros qp gn qp' gn' Hf.
  - injection Hf as <- <-. split; [apply incl_refl|tauto].
  - destruct (parse_geonames_file file qp gn) as [[qp1 gn1]| |] eqn:E; cbn [res_bind] in Hf;
      try discriminate.
    destruct (IH _ _ _ _ Hf) as [Hincl Hfiles].
    unfold parse_geonames_file in E.
    destruct file as [rows| |]; cbn [res_bind] in E; try discriminate.
    destruct (parse_geonames_rows_inv _ _ _ _ _ E) as (parsed & Hp & ->).
    split.
    + intros x Hx. apply Hincl. apply in_or_app. auto.
    + intros file' [<-|Hin]; [|apply Hfiles; exact Hin].
      exists rows, parsed. split; [reflexivity|]. split; [exact Hp|].
      intros x Hx. apply Hincl. apply in_or_app. auto.
Qed.

Lemma parse_alternate_rows_prefix `{Std} (rows : list (res (list string))) gn langs :
  forall qp qp', parse_alternate_rows rows qp gn langs = Ok qp' -> exists extra, qp' = qp ++ extra.
Proof.
  induction rows as [|row rows IH]; simpl; intros qp qp' Hr.
  - injection Hr as <-. exists []. symmetry. apply app_nil_r.
  - destruct row as [record| |]; cbn [res_bind] in Hr; try discriminate.
    destruct (parse_alternate_row langs gn record) as [[p|]| |]; cbn [res_bind] in Hr;
      try discriminate.
    + destruct (IH _ _ Hr) as [extra ->]. exists (p :: extra). rewrite <- app_assoc. reflexivity.
    + exact (IH _ _ Hr).
Qed.

Lemma build_primary_files `{Std} gn_paths gn_alternate_paths gn_alternate_languages s :
  build gn_paths gn_alternate_paths gn_alternate_languages = Ok s ->
  exists qp, build_index qp (geonames s) = Ok s /\ pairs_resolve (geonames s) qp /\
    forall file, In file gn_paths -> exists rows parsed,
      file = Ok rows /\ rows_parse rows parsed /\ incl (concat (List.map fst parsed)) qp.
Proof.
  unfold build. intros Hb.
  destruct (fold_res _ gn_paths ([], ∅)) as [[qp gn]| |] eqn:E1; cbn [res_bind] in Hb; try discriminate.
  assert (Hqp : pairs_resolve gn qp).
  { refine (fold_res_inv (fun st => pairs_resolve st.2 st.1) _ _ _ ([], ∅) (qp, gn) _ E1).
    - intros file [qp0 gn0] [qp1 gn1] Hi Hf. unfold parse_geonames_file in Hf.
      destruct file as [rows| |]; cbn [res_bind] in Hf; try discriminate.
      eapply parse_geonames_rows_resolve; eassumption.
    - constructor. }
  destruct (fold_primary_files _ _ _ _ _ E1) as [_ Hfiles].
  assert (Hfinal : exists qp', build_index qp' gn = Ok s /\ pairs_resolve gn qp' /\ incl qp qp').
  { destruct gn_alternate_paths as [paths|]; cbn [res_bind] in Hb.
    - destruct (fold_res _ paths qp) as [qp'| |] eqn:E2; cbn [res_bind] in Hb; try discriminate.
      exists qp'. split; [exact Hb|]. split.
      + refine (fold_res_inv (pairs_resolve gn) _ _ _ qp qp' Hqp E2).
        intros file x y Hx Hf. unfold parse_alternate_names_file in Hf.
        destruct file as [rows| |]; cbn [res_bind] in Hf; try discriminate.
        eapply parse_alternate_rows_resolve; eassumption.
      + refine (fold_res_inv (incl qp) _ _ _ qp qp' (incl_refl _) E2).
        intros file x y Hx Hf. unfold parse_alternate_names_file in Hf.
        destruct file as [rows| |]; cbn [res_bind] in Hf; try discriminate.
        destruct (parse_alternate_rows_prefix _ _ _ _ _ Hf) as [extra ->].
        intros z Hz. apply in_or_app. auto.
    - exists qp. split; [exact Hb|]. split; [exact Hqp|apply incl_refl]. }
  destruct Hfinal as (qp' & Hbi & Hres & Hincl).
  destruct (build_index_facts _ _ _ Hbi) as (_ & _ & _ & Hgn & _).
  exists qp'. rewrite Hgn. split; [exact Hbi|]. split; [exact Hres|].
  intros file Hin. destruct (Hfiles file Hin) as (rows & parsed & Hf & Hp & Hi).
  exists rows, parsed. split; [exact Hf|]. split; [exact Hp|].
  intros x Hx. apply Hincl, Hi, Hx.
Qed.

(** Insert, then lookup: after a successful [build], every non-empty name
    that a primary row emitted (its name, and its ASCII name when that
    differs) is found by [find] under the row's identifier, with the
    entry the Entry Store holds for that identifier. *)
Theorem build_then_find_primary_name `{Std} gn_paths gn_alternate_paths gn_alternate_languages
  (s : GeoNamesSearcher) (rows : list (res (list string))) (record : list string)
  pushed (id : N) (e : GeoNamesEntry) (t : string) (m : MatchType) :
  build gn_paths gn_alternate_paths gn_alternate_languages = Ok s ->
  In (Ok rows) gn_paths -> In (Ok record) rows ->
  parse_geonames_row record = Ok (pushed, (id, e)) ->
  In (t, m) pushed -> t <> "" ->
  exists rs e', find s t = Ok rs /\ MatchType_id m = id /\ geonames s !! id = Some e' /\
    In (GeoNamesSearchResult_new t m e') rs.
Proof.
  intros Hb Hfile Hrow Hrec Htm Hne.
  destruct (build_primary_files _ _ _ _ Hb) as (qp & Hbi & Hres & Hfiles).
  destruct (Hfiles _ Hfile) as (rows' & parsed & [= <-] & Hp & Hincl).
  destruct (Forall2_in_left _ _ _ _ Hp Hrow) as (p & Hpin & record' & [= <-] & Hrec').
  rewrite Hrec in Hrec'. injection Hrec' as <-.
  assert (Hqp : In (t, m) qp).
  { apply Hincl. apply in_concat. exists pushed. split; [|exact Htm].
    apply in_map_iff. exists (pushed, (id, e)). auto. }
  assert (Hid : MatchType_id m = id).
  { apply parse_geonames_row_ids in Hrec. apply List.Forall_forall with (x := (t, m)) in Hrec;
      [exact Hrec|exact Htm]. }
  set (g := List.map snd (List.filter (fun p => String.eqb p.1 t) qp)).
  assert (Hmg : In m g).
  { apply in_map_iff. exists (t, m). split; [reflexivity|].
    apply filter_In. split; [exact Hqp|apply String.eqb_refl]. }
  assert (Hgres : forall m', In m' g -> is_Some (geonames s !! MatchType_id m')).
  { intros m' Hm'. apply in_map_iff in Hm' as [[k m''] [Hk Hin]]. simpl in Hk. subst m''.
    apply filter_In in Hin as [Hin _].
    unfold pairs_resolve in Hres. rewrite List.Forall_forall in Hres. exact (Hres _ Hin). }
  destruct (expand_group_total (geonames s) (GeoNamesSearchResult_new t) g Hgres) as [rs Hrs].
  pose proof (expand_group_ok _ _ _ _ Hrs) as Hf2.
  destruct (Forall2_in_left _ _ _ _ Hf2 Hmg) as (r & Hr & e' & He' & ->).
  exists rs, e'. split.
  - rewrite (find_build_index qp (geonames s) s t Hbi).
    destruct (String.eqb_spec t "") as [->|_]; [contradiction|exact Hrs].
  - split; [exact Hid|]. split; [rewrite <- Hid; exact He'|exact Hr].
Qed.

Lemma build_then_find_primary_name_witness :
  exists rs e', find Concrete.ex_searcher "Frankfurt" = Ok rs /\ MatchType_id (Name 1) = 1%N /\
    geonames Concrete.ex_searcher !! 1%N = Some e' /\
    In (GeoNamesSearchResult_new "Frankfurt" (Name 1) e') rs.
Proof.
  set (record := ["1"; "Frankfurt"; "Frankfurt"; ""; "50.11"; "8.68"; "P"; "PPLA"; "DE";
                  ""; "05"; ""; ""; ""; ""; "112"]).
  assert (Hb : @build Concrete.std_concrete [Concrete.ex_primary] (Some [Concrete.ex_alternate]) None =
               Ok Concrete.ex_searcher) by (vm_compute; reflexivity).
  destruct (@parse_geonames_row Concrete.std_concrete record) as [[pushed [id e]]| |] eqn:E;
    [|vm_compute in E; discriminate..].
  assert (Hid : id = 1%N) by (vm_compute in E; congruence).
  assert (Hp : In ("Frankfurt", Name 1) pushed) by (vm_compute in E; injection E as <-; left; reflexivity).
  subst id.
  apply (@build_then_find_primary_name Concrete.std_concrete _ _ _ Concrete.ex_searcher
           [Ok record] record pushed 1 e "Frankfurt" (Name 1) Hb).
  - left. reflexivity.
  - left. reflexivity.
  - exact E.
  - exact Hp.
  - discriminate.
Defined.

Lemma parse_geonames_row_ok_iff `{Std} (record : list string) :
  (exists r, parse_geonames_row record = Ok r) <->
  exists id_s name name_ascii id,
    nth_error record 0 = Some id_s /\ nth_error record 1 = Some name /\
    nth_error record 2 = Some name_ascii /\ parse_u64 id_s = Ok id.
Proof.
  unfold parse_geonames_row. split.
  - intros [r Hr].
    destruct (nth_error record 0) as [id_s|]; cbn [res_bind ok_or] in Hr; [|discriminate].
    destruct (parse_u64 id_s) as [id| |] eqn:Ep; cbn [res_bind] in Hr; try discriminate.
    destruct (nth_error record 1) as [name|]; cbn [res_bind ok_or] in Hr; [|discriminate].
    destruct (nth_error record 2) as [na|]; cbn [res_bind ok_or] in Hr; [|discriminate].
    exists id_s, name, na, id. auto.
  - intros (id_s & name & na & id & H0 & H1 & H2 & Hp).
    rewrite H0. cbn [res_bind ok_or]. rewrite Hp. cbn [res_bind]. rewrite H1, H2.
    cbn [res_bind ok_or]. eexists. reflexivity.
Qed.

(** A primary row is accepted exactly when it has the columns 0 (the
    identifier), 1 (the name) and 2 (the ASCII name) and column 0 parses
    as a [u64]; every other column may be missing or malformed
    (coordinates become NaN, codes ["<missing>"] or [""], the elevation
    [None]). *)
Theorem parse_geonames_row_accepts `{Std} (record : list string) :
  (exists r, parse_geonames_row record = Ok r) <->
  exists id_s name name_ascii id,
    nth_error record 0 = Some id_s /\ nth_error record 1 = Some name /\
    nth_error record 2 = Some name_ascii /\ parse_u64 id_s = Ok id.
Proof.
  exact (parse_geonames_row_ok_iff record).
Qed.

(** [build] never skips a bad primary row: it succeeds only if every
    primary file opens and each of its rows is a CSV record with the
    columns 0, 1 and 2, column 0 being a [u64]; one row that is not
    aborts the whole build. *)
Theorem build_requires_every_primary_row `{Std} gn_paths gn_alternate_paths
  gn_alternate_languages (s : GeoNamesSearcher) :
  build gn_paths gn_alternate_paths gn_alternate_languages = Ok s ->
  forall file, In file gn_paths -> exists rows, file = Ok rows /\
    forall row, In row rows -> exists record id_s name name_ascii id,
      row = Ok record /\ nth_error record 0 = Some id_s /\ nth_error record 1 = Some name /\
      nth_error record 2 = Some name_ascii /\ parse_u64 id_s = Ok id.
Proof.
  intros Hb file Hin.
  destruct (build_primary_files _ _ _ _ Hb) as (qp & _ & _ & Hfiles).
  destruct (Hfiles file Hin) as (rows & parsed & -> & Hp & _).
  exists rows. split; [reflexivity|].
  intros row Hrow. destruct (Forall2_in_left _ _ _ _ Hp Hrow) as (p & _ & record & -> & Hr).
  destruct (proj1 (parse_geonames_row_ok_iff record) (ex_intro _ p Hr))
    as (id_s & name & na & id & H0 & H1 & H2 & Hpid).
  exists record, id_s, name, na, id. auto.
Qed.

Lemma build_requires_every_primary_row_witness :
  exists rows, Concrete.ex_primary = Ok rows /\
    forall row, In row rows -> exists record id_s name name_ascii id,
      row = Ok record /\ nth_error record 0 = Some id_s /\ nth_error record 1 = Some name /\
      nth_error record 2 = Some name_ascii /\ parse_u64 id_s = Ok id.
Proof.
  assert (Hb : @build Concrete.std_concrete [Concrete.ex_primary] (Some [Concrete.ex_alternate]) None =
               Ok Concrete.ex_searcher) by (vm_compute; reflexivity).
  exact (@build_requires_every_primary_row Concrete.std_concrete _ _ _ _ Hb
           Concrete.ex_primary (or_introl eq_refl)).
Defined.

(* ------------------------------------------------------------------ *)
(** ** Alternate names: skipping and the language filter *)

(** The order of the checks in [parse_alternate_names_file]: a row
    without a language column is an error; a row in a language outside
    [include_languages] is skipped before its identifier is read (so a
    malformed identifier or missing columns there do no harm); a row for
    an identifier absent from the Entry Store is skipped before its name
    and flag columns are read. *)
Theorem parse_alternate_row_skips (include_languages : option (list string))
  (gn : gmap N GeoNamesEntry) (record : list string) :
  (nth_error record 2 = None ->
     parse_alternate_row include_languages gn record = Err (EMissing "no language")) /\
  (forall lang set, nth_error record 2 = Some lang -> include_languages = Some set ->
     ~ In lang set -> parse_alternate_row include_languages gn record = Ok None) /\
  (forall lang id_s id, nth_error record 2 = Some lang ->
     match include_languages with Some set => In lang set | None => True end ->
     nth_error record 1 = Some id_s -> parse_u64 id_s = Ok id -> gn !! id = None ->
     parse_alternate_row include_languages gn record = Ok None).
Proof.
  unfold parse_alternate_row. split; [|split].
  - intros H2. rewrite H2. reflexivity.
  - intros lang set H2 -> Hnin. rewrite H2. cbn [res_bind ok_or].
    destruct (existsb (String.eqb lang) set) eqn:Ex; [|reflexivity].
    apply existsb_exists in Ex as (x & Hx & Heq). apply String.eqb_eq in Heq. subst x. contradiction.
  - intros lang id_s id H2 Hlang H1 Hp Hnone. rewrite H2. cbn [res_bind ok_or].
    assert (Hkeep : match include_languages with
                    | Some set => negb (existsb (String.eqb lang) set)
                    | None => false end = false).
    { destruct include_languages as [set|]; [|reflexivity].
      apply negb_false_iff, existsb_exists. exists lang. split; [exact Hlang|apply String.eqb_refl]. }
    rewrite Hkeep, H1. cbn [res_bind ok_or]. rewrite Hp. cbn [res_bind].
    rewrite Hnone. reflexivity.
Qed.

Lemma parse_alternate_row_skips_witness :
  parse_alternate_row (Some ["de"]) ∅ ["100"; "not a number"; "en"] = Ok None /\
  parse_alternate_row None ∅ ["100"; "7"; "de"] = Ok None.
Proof.
  split.
  - destruct (parse_alternate_row_skips (Some ["de"]) ∅
                ["100"; "not a number"; "en"]) as (_ & Hlang & _).
    apply (Hlang "en" ["de"]); [reflexivity|reflexivity|].
    intros [H|H]; [discriminate|contradiction].
  - destruct (parse_alternate_row_skips None ∅ ["100"; "7"; "de"])
      as (_ & _ & Hid).
    apply (Hid "de" "7" 7%N); [reflexivity|exact I|reflexivity|vm_compute; reflexivity|reflexivity].
Defined.

Lemma alternate_match_type_lang (id : N) lang from to p s c h :
  MatchType_lang (alternate_match_type id lang from to p s c h) = Some lang.
Proof. destruct p, s, c, h; reflexivity. Qed.

Lemma parse_alternate_row_lang include_languages (gn : gmap N GeoNamesEntry)
  (record : list string) p :
  parse_alternate_row include_languages gn record = Ok (Some p) ->
  exists lang, MatchType_lang p.2 = Some lang /\
    match include_languages with Some set => In lang set | None => True end.
Proof.
  unfold parse_alternate_row. intros Hrow.
  destruct (nth_error record 2) as [lang|]; cbn [res_bind ok_or] in Hrow; [|discriminate].
  exists lang.
  assert (Hlang : match include_languages with Some set => In lang set | None => True end).
  { destruct include_languages as [set|]; [|exact I].
    destruct (existsb (String.eqb lang) set) eqn:Ex; [|discriminate].
    apply existsb_exists in Ex as (x & Hx & Heq). apply String.eqb_eq in Heq. subst x. exact Hx. }
  split; [|exact Hlang].
  destruct (match include_languages with
            | Some set => negb (existsb (String.eqb lang) set)
            | None => false end); [discriminate|].
  destruct (nth_error record 1) as [id_s|]; cbn [res_bind ok_or] in Hrow; [|discriminate].
  destruct (parse_u64 id_s) as [id| |]; cbn [res_bind] in Hrow; try discriminate.
  destruct (bool_decide (is_Some (gn !! id))); cbn [negb] in Hrow; [|discriminate].
  destruct (nth_error record 3); cbn [res_bind ok_or] in Hrow; [|discriminate].
  destruct (nth_error record 4); cbn [res_bind ok_or] in Hrow; [|discriminate].
  destruct (nth_error record 5); cbn [res_bind ok_or] in Hrow; [|discriminate].
  destruct (nth_error record 6); cbn [res_bind ok_or] in Hrow; [|discriminate].
  destruct (nth_error record 7); cbn [res_bind ok_or] in Hrow; [|discriminate].
  injection Hrow as <-. simpl. apply alternate_match_type_lang.
Qed.

(** An alternate-names file only appends to the pairs, and every pair it
    appends carries a language (one of [include_languages] when that is
    given) and the identifier of a record of the Entry Store. *)
Theorem alternate_pairs_appended_in_languages (rows : list (res (list string)))
  (qp qp' : list (string * MatchType)) (gn : gmap N GeoNamesEntry)
  (include_languages : option (list string)) :
  parse_alternate_rows rows qp gn include_languages = Ok qp' ->
  exists extra, qp' = qp ++ extra /\
    Forall (fun p => is_Some (gn !! MatchType_id p.2) /\
                     exists lang, MatchType_lang p.2 = Some lang /\
                       match include_languages with Some set => In lang set | None => True end)
      extra.
Proof.
  revert qp. induction rows as [|row rows IH]; simpl; intros qp Hr.
  - injection Hr as <-. exists []. split; [symmetry; apply app_nil_r|constructor].
  - destruct row as [record| |]; cbn [res_bind] in Hr; try discriminate.
    destruct (parse_alternate_row include_languages gn record) as [[p|]| |] eqn:Er;
      cbn [res_bind] in Hr; try discriminate.
    + destruct (IH _ Hr) as (extra & -> & Hf). exists (p :: extra).
      split; [rewrite <- app_assoc; reflexivity|].
      constructor; [|exact Hf]. split.
      * eapply parse_alternate_row_resolve. exact Er.
      * eapply parse_alternate_row_lang. exact Er.
    + exact (IH _ Hr).
Qed.

Lemma alternate_pairs_appended_in_languages_witness :
  let gn : gmap N GeoNamesEntry :=
    {[ 1%N := mkGeoNamesEntry 1 "Frankfurt" f32_NAN f32_NAN "P" "PPLA" "DE" "" "" "" "" None ]} in
  let rows := [Ok ["100"; "1"; "de"; "Frankfurt am Main"; "1"; ""; ""; ""];
               Ok ["101"; "1"; "fr"; "Francfort"; ""; ""; ""; ""]] in
  exists qp' extra, parse_alternate_rows rows [] gn (Some ["de"]) = Ok qp' /\
    qp' = [] ++ extra /\
    Forall (fun p => is_Some (gn !! MatchType_id p.2) /\
                     exists lang, MatchType_lang p.2 = Some lang /\ In lang ["de"]) extra.
Proof.
  intros gn rows.
  destruct (parse_alternate_rows rows [] gn (Some ["de"])) as [qp'| |] eqn:E;
    [|vm_compute in E; discriminate..].
  destruct (alternate_pairs_appended_in_languages rows [] qp' gn
              (Some ["de"]) E) as (extra & Hq & Hf).
  exists qp', extra. auto.
Defined.

(* ------------------------------------------------------------------ *)
(** ** A build without primary records *)

(** With no primary file, the Entry Store is empty, every alternate name
    is skipped, and the index is empty: every exact lookup and every
    traversal returns no result. *)
Theorem build_without_primary_files_is_empty `{Std} (gn_alternate_paths : option (list CsvFile))
  (gn_alternate_languages : option (list string)) (s : GeoNamesSearcher) :
  build [] gn_alternate_paths gn_alternate_languages = Ok s ->
  geonames s = ∅ /\ search_matches s = [] /\
  (forall query, find s query = Ok []) /\
  (forall query, search s query = Ok []) /\
  (forall levenshtein_dist query raw max_dist,
     search_with_dist levenshtein_dist s query raw max_dist = Ok []).
Proof.
  unfold build. cbn [fold_res res_bind]. intros Hb.
  assert (Hqp : exists qp, build_index qp ∅ = Ok s /\ pairs_resolve ∅ qp).
  { destruct gn_alternate_paths as [paths|]; cbn [res_bind] in Hb.
    - destruct (fold_res _ paths []) as [qp'| |] eqn:E2; cbn [res_bind] in Hb; try discriminate.
      exists qp'. split; [exact Hb|].
      refine (fold_res_inv (pairs_resolve ∅) _ _ _ [] qp' (List.Forall_nil _) E2).
      intros file x y Hx Hf. unfold parse_alternate_names_file in Hf.
      destruct file as [rows| |]; cbn [res_bind] in Hf; try discriminate.
      eapply parse_alternate_rows_resolve; eassumption.
    - exists []. split; [exact Hb|constructor]. }
  destruct Hqp as (qp & Hbi & Hres).
  assert (Hnil : qp = []).
  { destruct qp as [|p qp]; [reflexivity|].
    inversion Hres as [|? ? [x Hx] _]. rewrite lookup_empty in Hx. discriminate. }
  subst qp. vm_compute in Hbi. injection Hbi as <-.
  split; [reflexivity|]. split; [reflexivity|].
  split; [intros q; reflexivity|]. split; [intros q; reflexivity|].
  intros lev q raw md. reflexivity.
Qed.

Lemma build_without_primary_files_is_empty_witness :
  exists s, @build Concrete.std_concrete [] (Some [Concrete.ex_alternate]) None = Ok s /\
    geonames s = ∅ /\ search_matches s = [] /\
    (forall query, find s query = Ok []) /\
    (forall query, search s query = Ok []) /\
    (forall levenshtein_dist query raw max_dist,
       search_with_dist levenshtein_dist s query raw max_dist = Ok []).
Proof.
  destruct (@build Concrete.std_concrete [] (Some [Concrete.ex_alternate]) None) as [s| |] eqn:E;
    [|vm_compute in E; discriminate..].
  exists s. split; [reflexivity|].
  exact (@build_without_primary_files_is_empty Concrete.std_concrete _ _ s E).
Defined.

(* ------------------------------------------------------------------ *)
(** ** What the route handlers answer *)







